(** * grab/util.go: filename resolution, directory provisioning,
      timestamp synchronisation and file checksums

    A shallow embedding of [util.go] of the [grab] download client.

    Go strings are byte sequences and are modelled as [list ascii] (an
    [ascii] is one byte).  The standard-library functions the file calls
    ([strings.HasSuffix], [strings.Contains], [path.Clean],
    [filepath.Base], [filepath.Dir]) are embedded from the Go sources, for a
    Unix build (where [filepath.Separator] is the forward slash and volume
    names are empty).  The operating system, the HTTP date parser, the MIME
    media-type parser and [transfer.copy] are interfaces: they are
    variables of the sections below. *)

From Stdlib Require Import Ascii String.
From stdpp Require Import base option list gmap strings.

Local Open Scope char_scope.
Local Open Scope list_scope.

Abbreviation gostring := (list ascii) (only parsing).

(** A string literal as a Go string. *)
Definition gostr (s : string) : gostring := list_ascii_of_string s.

Definition slash : ascii := "/".
Definition dot : ascii := ".".
Definition NUL : ascii := "000".
Definition backslash : ascii := "\".
Definition dquote : ascii := "034".

(** ** package strings *)
Module strings.

(** [strings.HasPrefix(s, prefix)] *)
Fixpoint HasPrefix (s prefix : gostring) : bool :=
  match prefix, s with
  | [], _ => true
  | _ :: _, [] => false
  | c :: prefix', d :: s' => Ascii.eqb c d && HasPrefix s' prefix'
  end.

(** [strings.HasSuffix(s, suffix)]:
    [len(s) >= len(suffix) && s[len(s)-len(suffix):] == suffix] *)
Definition HasSuffix (s suffix : gostring) : bool :=
  (length suffix <=? length s)%nat &&
  bool_decide (drop (length s - length suffix) s = suffix).

(** [strings.Index(s, substr) >= 0], as a search at every offset. *)
Fixpoint Contains (s substr : gostring) : bool :=
  HasPrefix s substr ||
  match s with
  | [] => false
  | _ :: s' => Contains s' substr
  end.

End strings.

(** ** package path *)
Module path.

(** The [lazybuf] of [path.Clean] is modelled by its logical content
    [buf[0..w)], kept in reverse: the head of the list is the byte at
    index [w-1], [out.append(c)] is a cons and [out.w] is the length. *)

(** [out.w--; for out.w > dotdot && out.index(out.w) != '/' { out.w-- }]
    where [c] is the byte at the index [out.w] just given up and [out]
    holds the bytes below it. *)
Fixpoint backtrack (dotdot : nat) (c : ascii) (out : gostring) : gostring :=
  if (dotdot <? length out)%nat && negb (Ascii.eqb c slash) then
    match out with
    | c' :: out' => backtrack dotdot c' out'
    | [] => []
    end
  else out.

(** [r+k == n || path[r+k] == '/'], on the rest of the path at [r+k]. *)
Definition end_or_slash (p : gostring) : bool :=
  match p with
  | [] => true
  | c :: _ => Ascii.eqb c slash
  end.

(** [for ; r < n && path[r] != '/'; r++ { out.append(path[r]) }] *)
Fixpoint copy_element (p out : gostring) : gostring * gostring :=
  match p with
  | [] => ([], out)
  | c :: p' => if Ascii.eqb c slash then (p, out) else copy_element p' (c :: out)
  end.

(** The loop [for r < n { switch ... }] of [path.Clean]; [p] is
    [path[r:]].  Every iteration advances [r], so [length p] iterations
    are enough: [fuel] bounds them. *)
Fixpoint clean_loop (fuel : nat) (rooted : bool) (p out : gostring)
    (dotdot : nat) : gostring :=
  match fuel, p with
  | _, [] => out
  | O, _ => out
  | S fuel, c :: p1 =>
    if Ascii.eqb c slash then
      (* empty path element *)
      clean_loop fuel rooted p1 out dotdot
    else if Ascii.eqb c dot && end_or_slash p1 then
      (* . element *)
      clean_loop fuel rooted p1 out dotdot
    else if Ascii.eqb c dot &&
            match p1 with
            | c1 :: p2 => Ascii.eqb c1 dot && end_or_slash p2
            | [] => false
            end then
      (* .. element: remove to last / *)
      let p2 := tail p1 in
      if (dotdot <? length out)%nat then
        (* can backtrack *)
        match out with
        | c0 :: out' => clean_loop fuel rooted p2 (backtrack dotdot c0 out') dotdot
        | [] => clean_loop fuel rooted p2 out dotdot
        end
      else if negb rooted then
        (* cannot backtrack, but not rooted, so append .. element *)
        let out1 := if (0 <? length out)%nat then slash :: out else out in
        let out2 := dot :: dot :: out1 in
        clean_loop fuel rooted p2 out2 (length out2)
      else clean_loop fuel rooted p2 out dotdot
    else
      (* real path element: add slash if needed, copy element *)
      let out1 :=
        if (rooted && negb (length out =? 1)%nat) ||
           (negb rooted && negb (length out =? 0)%nat)
        then slash :: out else out in
      let '(p', out2) := copy_element p out1 in
      clean_loop fuel rooted p' out2 dotdot
  end.

(** [path.Clean(path)] *)
Definition Clean (path : gostring) : gostring :=
  match path with
  | [] => [dot]
  | c0 :: p1 =>
    let out :=
      if Ascii.eqb c0 slash
      then clean_loop (length path) true p1 [slash] 1
      else clean_loop (length path) false path [] 0 in
    (* Turn empty string into "." *)
    if (length out =? 0)%nat then [dot] else rev out
  end.

End path.

(** ** package path/filepath (Unix build) *)
Module filepath.

(** [os.IsPathSeparator(c)]: [PathSeparator == c] with [PathSeparator = '/']. *)
Definition IsPathSeparator (c : ascii) : bool := Ascii.eqb slash c.

(** [filepath.VolumeName(path)] is always empty on Unix. *)
Definition VolumeName (path : gostring) : gostring := [].

(** On the reversed path: drop the trailing separators. *)
Fixpoint strip_trailing (rp : gostring) : gostring :=
  match rp with
  | c :: rp' => if IsPathSeparator c then strip_trailing rp' else rp
  | [] => []
  end.

(** On the reversed path: the bytes after the last separator, walking
    [i] down from [len(path)-1] while [path[i]] is not a separator. *)
Fixpoint last_element (rp : gostring) : gostring :=
  match rp with
  | c :: rp' => if IsPathSeparator c then [] else c :: last_element rp'
  | [] => []
  end.

(** On the reversed path: what is left once the last element is taken
    off, [path[:i+1]]. *)
Fixpoint before_last_element (rp : gostring) : gostring :=
  match rp with
  | c :: rp' => if IsPathSeparator c then rp else before_last_element rp'
  | [] => []
  end.

(** [filepath.Base(path)] *)
Definition Base (path : gostring) : gostring :=
  match path with
  | [] => [dot]
  | _ :: _ =>
    (* Strip trailing slashes. *)
    let path := rev (strip_trailing (rev path)) in
    (* Throw away volume name *)
    let path := drop (length (VolumeName path)) path in
    (* Find the last element *)
    let path := rev (last_element (rev path)) in
    (* If empty now, it had only slashes. *)
    match path with
    | [] => [slash]
    | _ :: _ => path
    end
  end.

(** [filepath.Clean] is [path.Clean] on Unix. *)
Definition Clean (path : gostring) : gostring := path.Clean path.

(** [filepath.Dir(path)] *)
Definition Dir (path : gostring) : gostring :=
  let vol := VolumeName path in
  let dir := Clean (rev (before_last_element (rev (drop (length vol) path)))) in
  if bool_decide (dir = [dot]) && (2 <? length vol)%nat then vol
  else vol ++ dir.

End filepath.

(** ** Errors *)

(** The error numbers of the operating system the model names. *)
Inductive Errno : Type :=
  ENOENT | EACCES | ENOTDIR | EISDIR | EEXIST | EIO.

(** Go [error] values: the package's sentinel [ErrNoFilename], the context
    errors, [*os.PathError], errors known by their text and
    [fmt.Errorf("<prefix>: %v", err)]. *)
Inductive error : Type :=
  | ErrNoFilename
  | Canceled
  | PathError (op : string) (name : gostring) (errno : Errno)
  | ErrorString (msg : string)
  | Errorf (prefix : string) (cause : error).

(** A Go result pair [(T, error)]: [err == nil] with the value, or the
    error. *)
Inductive result (T : Type) : Type :=
  | Ok (v : T)
  | Err (e : error).
Arguments Ok {T} v.
Arguments Err {T} e.

(** A Go [error] result: [None] is [nil]. *)
Abbreviation goerror := (option error) (only parsing).

(** [os.IsNotExist(err)]: the underlying error of a [PathError] is
    [ENOENT]. *)
Definition IsNotExist (err : error) : bool :=
  match err with
  | PathError _ _ ENOENT => true
  | _ => false
  end.

(** ** net/http and net/url *)

(** [url.URL]: the fields the query string is kept apart from the path in. *)
Record URL : Type := mkURL {
  Path : gostring;
  RawQuery : gostring
}.

Record Request : Type := mkRequest {
  Request_URL : URL
}.

(** [http.Header] is [map[string][]string]. *)
Record Response : Type := mkResponse {
  Header : gmap gostring (list gostring);
  Response_Request : Request
}.

(** [h.Get(key)]: the first value of the key, or the empty string.  The
    two keys [util.go] asks for are in canonical form, which
    [CanonicalMIMEHeaderKey] leaves as they are. *)
Definition Header_Get (h : gmap gostring (list gostring)) (key : gostring)
    : gostring :=
  match h !! key with
  | Some (v :: _) => v
  | _ => []
  end.

(** [m[key]] of a [map[string]string]: the empty string when absent. *)
Definition map_index (m : gmap gostring gostring) (key : gostring) : gostring :=
  default [] (m !! key).

(** [http.TimeFormat] *)
Definition TimeFormat : gostring := gostr "Mon, 02 Jan 2006 15:04:05 GMT".

(** ** normalizeFilename *)

Definition normalizeFilename (filename : gostring) : result gostring :=
  (* sanitize *)
  if bool_decide (filename = []) || strings.HasSuffix filename [slash]
     || strings.Contains filename [NUL] then
    Err ErrNoFilename
  else
    let filename := filepath.Base (path.Clean (slash :: filename)) in
    if bool_decide (filename = []) || bool_decide (filename = [dot])
       || bool_decide (filename = [slash]) then
      Err ErrNoFilename
    else Ok filename.

(** ** Effects *)

(** Code that acts on the file system is a state transformer over the
    state [FS] of the file system. *)
Definition M (FS A : Type) : Type := FS -> FS * A.

#[global] Instance M_ret {FS} : MRet (M FS) := fun A a fs => (fs, a).

#[global] Instance M_bind {FS} : MBind (M FS) :=
  fun A B k c fs => let '(fs', a) := c fs in k a fs'.

(** How a call ends: it returns, or it panics. *)
Inductive outcome (A : Type) : Type :=
  | Returns (a : A)
  | Panics (msg : string).
Arguments Returns {A} a.
Arguments Panics {A} msg.

(** The operating system as [util.go] uses it. *)
Class OS (FS FileInfo File Time : Type) : Type := {
  (** [os.Stat(name)] *)
  os_Stat : gostring -> M FS (result FileInfo);
  (** [fi.IsDir()] *)
  IsDir : FileInfo -> bool;
  (** [os.MkdirAll(path, perm)] *)
  os_MkdirAll : gostring -> N -> M FS goerror;
  (** [os.Chtimes(name, atime, mtime)] *)
  os_Chtimes : gostring -> Time -> Time -> M FS goerror;
  (** [os.Open(name)] *)
  os_Open : gostring -> M FS (result File);
  (** [f.Close()] *)
  File_Close : File -> M FS goerror
}.

(** [hash.Hash]: the state of the hash is passed along.  [Sum] appends the
    current hash to [b] and [Size] is the number of bytes [Sum] adds. *)
Class Hash (H : Type) : Type := {
  (** [h.Write(p)] *)
  Hash_Write : H -> gostring -> H;
  (** [h.Sum(b)] *)
  Hash_Sum : H -> gostring -> gostring;
  (** [h.Size()] *)
  Hash_Size : H -> nat;
  Hash_Sum_length : forall h b, length (Hash_Sum h b) = length b + Hash_Size h
}.

(** ** util.go *)
Section Util.

Context {FS FileInfo File Time H Ctx : Type}.
Context {os : OS FS FileInfo File Time} {hash : Hash H}.

(** [time.Parse(layout, value)] *)
Variable time_Parse : gostring -> gostring -> result Time.

(** [mime.ParseMediaType(v)]: the media type and its parameters. *)
Variable ParseMediaType :
  gostring -> result (gostring * gmap gostring gostring).

(** [newTransfer(ctx, nil, h, f, nil).copy()]: the bytes of [f] are
    written to [h] until the end of the file, an error or the
    cancellation of [ctx]; the result is the hash, the count of bytes
    written and the error. *)
Variable transfer_copy : Ctx -> H -> File -> M FS (H * (Z * goerror)).

(** [setLastModified] sets the last modified timestamp of a local file
    according to the Last-Modified header returned by a remote server. *)
Definition setLastModified (resp : Response) (filename : gostring)
    : M FS goerror :=
  let header := Header_Get (Header resp) (gostr "Last-Modified") in
  if bool_decide (header = []) then mret None
  else
    match time_Parse TimeFormat header with
    | Err _ => mret None
    | Ok lastmod => os_Chtimes filename lastmod lastmod
    end.

(** 0755 *)
Definition perm_0755 : N := 7 * 64 + 5 * 8 + 5.

(** [mkdirp] creates all missing parent directories for the destination
    file path. *)
Definition mkdirp (path : gostring) : M FS (outcome goerror) :=
  let dir := filepath.Dir path in
  r ← os_Stat dir;
  match r with
  | Err err =>
    if negb (IsNotExist err) then
      mret (Returns (Some (Errorf "error checking destination directory" err)))
    else
      e ← os_MkdirAll dir perm_0755;
      match e with
      | Some err =>
        mret (Returns (Some (Errorf "error creating destination directory" err)))
      | None => mret (Returns None)
      end
  | Ok fi =>
    if negb (IsDir fi) then mret (Panics "destination path is not directory")
    else mret (Returns None)
  end.

(** [guessFilename] returns a filename for the given [http.Response]. *)
Definition guessFilename (resp : Response) : result gostring :=
  let filename := Path (Request_URL (Response_Request resp)) in
  let cd := Header_Get (Header resp) (gostr "Content-Disposition") in
  let from_url := normalizeFilename filename in
  if negb (bool_decide (cd = [])) then
    match ParseMediaType cd with
    | Ok (_, params) =>
      if negb (bool_decide (map_index params (gostr "filename") = [])) then
        match normalizeFilename (map_index params (gostr "filename")) with
        | Ok hFilename => Ok hFilename
        | Err _ => from_url
        end
      else from_url
    | Err _ => from_url
    end
  else from_url.

(** [checksum] returns a hash of the given file, using the given hash
    algorithm.  The results are the named results [(b, err)] and the
    hash [h] after the call; [deferred] is the deferred function, run
    with the named results of every [return] after it was registered. *)
Definition checksum (ctx : Ctx) (filename : gostring) (h : H)
    : M FS (H * (gostring * goerror)) :=
  r ← os_Open filename;
  match r with
  | Err err => mret (h, ([], Some err))
  | Ok f =>
    let deferred (b : gostring) (err : goerror) : M FS (gostring * goerror) :=
      err ← File_Close f ; mret (b, err) in
    '(h', (_, err)) ← transfer_copy ctx h f;
    match err with
    | Some e =>
      res ← deferred [] (Some e) ; mret (h', res)
    | None =>
      let b := Hash_Sum h' [] in
      res ← deferred b None ; mret (h', res)
    end
  end.

End Util.

(** The elements of a path: the pieces between its slashes (an empty
    path has one empty element). *)
Fixpoint elements (p : gostring) : list gostring :=
  match p with
  | [] => [[]]
  | c :: p' =>
    if Ascii.eqb c slash then [] :: elements p'
    else
      match elements p' with
      | e :: es => (c :: e) :: es
      | [] => [[c]]
      end
  end.

(** ** A file system in memory

    An instance of the interfaces that can be run: a file system as a map
    from cleaned absolute paths to nodes (without symbolic links, and
    without times for directories), a process with a working directory and
    a umask, a one-byte additive hash, a context that is cancelled after a
    number of polls, and parsers that know the values listed to them.  A
    [time.Time] is its Unix time in seconds; the times of a file are kept
    as the kernel gets them, in nanoseconds since the epoch. *)
Module Sim.

Inductive node : Type :=
  | DirNode (perm : N)
  | FileNode (data : gostring) (atime mtime : Z) (close_fails : bool).

Definition FS : Type := gmap gostring node.

Record File : Type := mkFile {
  File_name : gostring;
  File_data : option gostring
}.

Definition is_dir (n : node) : bool :=
  match n with DirNode _ => true | FileNode _ _ _ _ => false end.

(** The working directory and the umask of the process. *)
Definition cwd : gostring := gostr "/srv/data".
Definition umask : N := 18.

(** A name as an absolute path: a relative name is taken from the
    working directory. *)
Definition absolute (name : gostring) : gostring :=
  match name with
  | c :: _ => if Ascii.eqb c slash then name else cwd ++ slash :: name
  | [] => []
  end.

(** The entry [e] of the directory [dir]. *)
Definition child (dir e : gostring) : gostring :=
  if bool_decide (dir = [slash]) then slash :: e else dir ++ slash :: e.

(** The walk of the kernel along the elements of a path, from the
    directory [cur]: every directory on the way exists and may be
    searched (0100); [.] stays, [..] goes up.  The result is the path of
    the last element, which need not exist. *)
Fixpoint resolve (comps : list gostring) (cur : gostring) (fs : FS)
    : Errno + gostring :=
  match comps with
  | [] => inr cur
  | e :: rest =>
    match fs !! cur with
    | Some (DirNode perm) =>
      if negb (N.testbit perm 6) then inl EACCES
      else if bool_decide (e = []) || bool_decide (e = [dot]) then
        resolve rest cur fs
      else if bool_decide (e = [dot; dot]) then
        resolve rest (filepath.Dir cur) fs
      else resolve rest (child cur e) fs
    | Some (FileNode _ _ _ _) => inl ENOTDIR
    | None => inl ENOENT
    end
  end.

(** Where a name leads: its resolved path and the node there, if any. *)
Definition locate (name : gostring) (fs : FS)
    : Errno + (gostring * option node) :=
  match name with
  | [] => inl ENOENT
  | _ :: _ =>
    match resolve (elements (tail (absolute name))) [slash] fs with
    | inl e => inl e
    | inr p => inr (p, fs !! p)
    end
  end.

Definition Stat (name : gostring) : M FS (result node) := fun fs =>
  match locate name fs with
  | inr (_, Some n) => (fs, Ok n)
  | inr (_, None) => (fs, Err (PathError "stat" name ENOENT))
  | inl e => (fs, Err (PathError "stat" name e))
  end.

(** [os.Mkdir]: the parent is a directory that may be written (0200);
    the mode of the new directory is [perm] without the bits of the
    umask. *)
Definition Mkdir (name : gostring) (perm : N) : M FS goerror := fun fs =>
  match locate name fs with
  | inr (_, Some _) => (fs, Some (PathError "mkdir" name EEXIST))
  | inr (p, None) =>
    match fs !! filepath.Dir p with
    | Some (DirNode pperm) =>
      if N.testbit pperm 7 then
        (<[p := DirNode (N.ldiff perm umask)]> fs, None)
      else (fs, Some (PathError "mkdir" name EACCES))
    | Some (FileNode _ _ _ _) => (fs, Some (PathError "mkdir" name ENOTDIR))
    | None => (fs, Some (PathError "mkdir" name ENOENT))
    end
  | inl e => (fs, Some (PathError "mkdir" name e))
  end.

(** [os.MkdirAll]: nothing to do for a directory; otherwise the parent
    first, then the directory itself. *)
Fixpoint MkdirAll_fuel (fuel : nat) (name : gostring) (perm : N)
    : M FS goerror := fun fs =>
  match locate name fs with
  | inr (_, Some n) =>
    if is_dir n then (fs, None)
    else (fs, Some (PathError "mkdir" name ENOTDIR))
  | _ =>
    match fuel with
    | O => Mkdir name perm fs
    | S fuel =>
      let parent := filepath.Dir name in
      if bool_decide (parent = name) then Mkdir name perm fs
      else
        match MkdirAll_fuel fuel parent perm fs with
        | (fs', Some e) => (fs', Some e)
        | (fs', None) => Mkdir name perm fs'
        end
    end
  end.

Definition MkdirAll (name : gostring) (perm : N) : M FS goerror :=
  MkdirAll_fuel (length name) name perm.

(** The zero [time.Time], January 1, year 1, 00:00:00 UTC, as a Unix
    time. *)
Definition zero_time : Z := (-62135596800)%Z.

(** An [int64] result, with its wrap-around. *)
Definition wrap64 (z : Z) : Z := ((z + 2 ^ 63) mod 2 ^ 64 - 2 ^ 63)%Z.

(** [t.UnixNano()] of a time of whole seconds. *)
Definition UnixNano (t : Z) : Z := wrap64 (t * 1000000000)%Z.

(** What [os.Chtimes] gives the kernel for one of the two times: a zero
    [time.Time] is [UTIME_OMIT], which leaves the time [old] of the file
    as it is; any other time is [syscall.NsecToTimespec(t.UnixNano())]. *)
Definition new_time (old t : Z) : Z :=
  if (t =? zero_time)%Z then old else UnixNano t.

Definition Chtimes (name : gostring) (atime mtime : Z) : M FS goerror :=
  fun fs =>
  match locate name fs with
  | inr (p, Some (FileNode data a m cf)) =>
    (<[p := FileNode data (new_time a atime) (new_time m mtime) cf]> fs, None)
  | inr (_, Some (DirNode _)) => (fs, None)
  | inr (_, None) => (fs, Some (PathError "chtimes" name ENOENT))
  | inl e => (fs, Some (PathError "chtimes" name e))
  end.

Definition Open (name : gostring) : M FS (result File) := fun fs =>
  match locate name fs with
  | inr (_, Some (FileNode data _ _ _)) => (fs, Ok (mkFile name (Some data)))
  | inr (_, Some (DirNode _)) => (fs, Ok (mkFile name None))
  | inr (_, None) => (fs, Err (PathError "open" name ENOENT))
  | inl e => (fs, Err (PathError "open" name e))
  end.

Definition Close (f : File) : M FS goerror := fun fs =>
  match locate (File_name f) fs with
  | inr (_, Some (FileNode _ _ _ true)) =>
    (fs, Some (PathError "close" (File_name f) EIO))
  | _ => (fs, None)
  end.

(** The access and modification times of a file. *)
Definition times_of (name : gostring) (fs : FS) : option (Z * Z) :=
  match locate name fs with
  | inr (_, Some (FileNode _ a m _)) => Some (a, m)
  | _ => None
  end.

#[global] Instance sim_OS : OS FS node File Z := {|
  os_Stat := Stat;
  IsDir := is_dir;
  os_MkdirAll := MkdirAll;
  os_Chtimes := Chtimes;
  os_Open := Open;
  File_Close := Close
|}.

(** A hash of one byte: the sum of the bytes written, modulo 256. *)
Definition sum8 : Type := N.

Definition sum8_Write (h : sum8) (p : gostring) : sum8 :=
  foldl (fun a c => ((a + N_of_ascii c) mod 256)%N) h p.

Definition sum8_Sum (h : sum8) (b : gostring) : gostring :=
  b ++ [ascii_of_N h].

#[global] Program Instance sum8_Hash : Hash sum8 := {|
  Hash_Write := sum8_Write;
  Hash_Sum := sum8_Sum;
  Hash_Size := fun _ => 1
|}.
Next Obligation. intros h b. unfold sum8_Sum. apply length_app. Qed.

(** A context: [Some k] is cancelled once it has been polled [k]
    times, [None] never is. *)
Definition Ctx : Type := option nat.

(** The size of the chunks of the copy. *)
Definition chunk_size : nat := 32 * 1024.

(** Modelled from the spec: [transfer.copy] is not in [util.go].  It is
    the chunked read-then-write loop that polls the cancellation signal
    before each chunk and ends with the error of the context, with a
    read error, or at the end of the file. *)
Fixpoint copy_chunks {H} `{!Hash H} (fuel : nat) (ctx : Ctx)
    (data : gostring) (h : H) (written : Z) : H * (Z * goerror) :=
  match fuel with
  | O => (h, (written, None))
  | S fuel =>
    match ctx with
    | Some O => (h, (written, Some Canceled))
    | _ =>
      match data with
      | [] => (h, (written, None))
      | _ :: _ =>
        let chunk := take chunk_size data in
        copy_chunks fuel (pred <$> ctx) (drop chunk_size data)
          (Hash_Write h chunk) (written + Z.of_nat (length chunk))
      end
    end
  end.

Definition copy {H} `{!Hash H} (ctx : Ctx) (h : H) (f : File)
    : M FS (H * (Z * goerror)) := fun fs =>
  match ctx, File_data f with
  | Some O, _ => (fs, (h, (0%Z, Some Canceled)))
  | _, None => (fs, (h, (0%Z, Some (PathError "read" (File_name f) EISDIR))))
  | _, Some data => (fs, copy_chunks (S (length data)) ctx data h 0%Z)
  end.

(** A parser that knows the values of a table. *)
Definition parse_table {T} (what : string) (table : list (gostring * T))
    (v : gostring) : result T :=
  match list_find (fun kv => kv.1 = v) table with
  | Some (_, (_, t)) => Ok t
  | None => Err (ErrorString what)
  end.

(** [time.Parse] on the layout [http.TimeFormat], for three dates. *)
Definition time_Parse (layout value : gostring) : result Z :=
  if bool_decide (layout = TimeFormat) then
    parse_table "parsing time"
      [(gostr "Wed, 21 Oct 2015 07:28:00 GMT", 1445412480%Z);
       (gostr "Mon, 01 Jan 0001 00:00:00 GMT", zero_time);
       (gostr "Fri, 31 Dec 9999 23:59:59 GMT", 253402300799%Z)] value
  else Err (ErrorString "parsing time").

(** [attachment; filename="<name>"] *)
Definition attachment (name : gostring) : gostring :=
  gostr "attachment; filename=" ++ dquote :: name ++ [dquote].

(** [mime.ParseMediaType] on the headers the examples use. *)
Definition ParseMediaType
    : gostring -> result (gostring * gmap gostring gostring) :=
  parse_table "mime: no media type"
    [(attachment (gostr "report.pdf"),
      (gostr "attachment", {[ gostr "filename" := gostr "report.pdf" ]}));
     (attachment (gostr "dir/"),
      (gostr "attachment", {[ gostr "filename" := gostr "dir/" ]}));
     (gostr "inline", (gostr "inline", ∅))].

(** A file system: [/srv/ro] may not be written, [/srv/data/f.bin]
    and [/srv/data/bad.bin] are files, the second on a device that
    fails on close. *)
Definition fs0 : FS :=
  list_to_map
    [(gostr "/", DirNode 493);
     (gostr "/srv", DirNode 493);
     (gostr "/srv/ro", DirNode 365);
     (gostr "/srv/data", DirNode 493);
     (gostr "/srv/data/f.bin", FileNode (gostr "hello") 0 0 false);
     (gostr "/srv/data/bad.bin", FileNode (gostr "hello") 0 0 true)].

Definition response (headers : list (gostring * list gostring))
    (path query : gostring) : Response :=
  mkResponse (list_to_map headers) (mkRequest (mkURL path query)).

End Sim.

(** ** Specification vocabulary for cleaned paths *)

(** A real path element: not empty, without a slash, and neither [.]
    nor [..]. *)
Definition real (c : gostring) : Prop :=
  c ≠ [] ∧ (slash ∉ c) ∧ c ≠ [dot] ∧ c ≠ [dot; dot].

(** The output buffer of [path.Clean] on a rooted path (in reverse, as
    [path.clean_loop] keeps it) that holds the elements [comps], the
    last one first: the root slash, then the elements joined by
    slashes. *)
Fixpoint rooted_buf (comps : list gostring) : gostring :=
  match comps with
  | [] => [slash]
  | c :: cs =>
    rev c ++ (match cs with
              | [] => [slash]
              | _ :: _ => slash :: rooted_buf cs
              end)
  end.

(** What one element does to the stack of the elements kept so far of a
    rooted path (the last one first): an empty element and [.] are
    dropped, [..] takes the last element off, if there is one, and any
    other element is kept. *)
Definition clean_step (stack : list gostring) (e : gostring)
    : list gostring :=
  if bool_decide (e = []) || bool_decide (e = [dot]) then stack
  else if bool_decide (e = [dot; dot]) then tail stack
  else e :: stack.

(** The elements kept of the rooted path ["/" + s], the last one first. *)
Definition clean_stack (s : gostring) : list gostring :=
  foldl clean_step [] (elements s).

(** The rooted path of a list of elements: the root alone, or every
    element after a slash. *)
Definition rooted_path (elems : list gostring) : gostring :=
  match elems with
  | [] => [slash]
  | _ :: _ => concat (map (cons slash) elems)
  end.

(** The guard of [normalizeFilename]. *)
Definition rejected_early (s : gostring) : bool :=
  bool_decide (s = []) || strings.HasSuffix s [slash]
  || strings.Contains s [NUL].

(** ** Lemmas on the string functions *)

Lemma eqb_slash_true c : Ascii.eqb c slash = true ↔ c = slash.
Proof. apply Ascii.eqb_eq. Qed.

Lemma eqb_slash_false c : Ascii.eqb c slash = false ↔ c ≠ slash.
Proof. apply Ascii.eqb_neq. Qed.

Lemma elem_of_rev {A} (x : A) (l : list A) : x ∈ rev l ↔ x ∈ l.
Proof. rewrite !list_elem_of_In. symmetry. apply in_rev. Qed.

Lemma HasPrefix_nil (s : gostring) : strings.HasPrefix s [] = true.
Proof. destruct s; reflexivity. Qed.

Lemma Contains_byte (s : gostring) (x : ascii) :
  strings.Contains s [x] = true ↔ x ∈ s.
Proof.
  induction s as [|d s IH]; simpl.
  - split; [discriminate | intros Hx; inversion Hx].
  - rewrite orb_true_iff, IH, HasPrefix_nil, andb_true_r, Ascii.eqb_eq.
    rewrite elem_of_cons. reflexivity.
Qed.

Lemma HasSuffix_byte (s : gostring) (x : ascii) :
  strings.HasSuffix s [x] = true ↔ last s = Some x.
Proof.
  unfold strings.HasSuffix.
  destruct s as [|d s _] using rev_ind.
  - simpl. split; discriminate.
  - rewrite last_snoc, length_app.
    change (length [x]) with 1. change (length [d]) with 1.
    replace (length s + 1 - 1) with (length s) by lia.
    rewrite drop_app_length, andb_true_iff, bool_decide_eq_true, Nat.leb_le.
    split.
    + intros [_ E]. congruence.
    + intros E. split; [lia | congruence].
Qed.

(** ** Lemmas on [path.Clean] *)

Lemma copy_element_spec (p out : gostring) :
  ∃ elem p',
    p = elem ++ p' ∧ (slash ∉ elem) ∧ path.end_or_slash p' = true ∧
    path.copy_element p out = (p', rev elem ++ out).
Proof.
  revert out. induction p as [|c p IH]; intros out; simpl.
  - exists [], []. repeat split; auto. apply not_elem_of_nil.
  - destruct (Ascii.eqb c slash) eqn:E.
    + exists [], (c :: p). simpl. rewrite E.
      repeat split; auto. apply not_elem_of_nil.
    + destruct (IH (c :: out)) as (elem & p' & -> & Hn & He & Hc).
      exists (c :: elem), p'. repeat split; auto.
      * apply eqb_slash_false in E. rewrite not_elem_of_cons. split; congruence.
      * rewrite Hc. simpl. rewrite <- app_assoc. reflexivity.
Qed.

Lemma backtrack_element (l X : gostring) (c0 : ascii) :
  c0 ≠ slash → slash ∉ l →
  path.backtrack 1 c0 (l ++ slash :: X) =
    match X with [] => [slash] | _ :: _ => X end.
Proof.
  revert c0. induction l as [|c l IH]; intros c0 Hc0 Hl.
  - apply eqb_slash_false in Hc0.
    destruct X as [|x X]; simpl; [reflexivity|].
    rewrite Hc0. simpl. rewrite andb_false_r. reflexivity.
  - apply not_elem_of_cons in Hl as [Hc Hl].
    cbn [app path.backtrack].
    replace (1 <? length (c :: l ++ slash :: X))%nat with true.
    2:{ symmetry. apply Nat.ltb_lt. simpl. rewrite length_app. simpl. lia. }
    apply eqb_slash_false in Hc0. rewrite Hc0. simpl negb. cbn [andb].
    apply IH; auto.
Qed.

(** The loop of [path.Clean] ends because the path is used up, not the
    fuel: any fuel that is at least the length of the rest of the path
    gives the same buffer. *)
Lemma clean_loop_fuel (fuel : nat) :
  ∀ (fuel' : nat) (rooted : bool) (p out : gostring) (dotdot : nat),
    length p ≤ fuel → length p ≤ fuel' →
    path.clean_loop fuel rooted p out dotdot
    = path.clean_loop fuel' rooted p out dotdot.
Proof.
  induction fuel as [|fuel IH]; intros fuel' rooted p out dotdot Hl Hl'.
  { destruct p; [|simpl in Hl; lia]. destruct fuel'; reflexivity. }
  destruct p as [|c p1]; [destruct fuel'; reflexivity|].
  destruct fuel' as [|fuel']; [simpl in Hl'; lia|].
  simpl in Hl, Hl'. cbn [path.clean_loop].
  destruct (Ascii.eqb c slash) eqn:Ec; [apply IH; lia|].
  destruct (Ascii.eqb c dot && path.end_or_slash p1); [apply IH; lia|].
  destruct (Ascii.eqb c dot &&
            match p1 with
            | c1 :: p2 => Ascii.eqb c1 dot && path.end_or_slash p2
            | [] => false
            end).
  { assert (length (tail p1) ≤ length p1) by (destruct p1; simpl; lia).
    destruct (dotdot <? length out)%nat.
    - destruct out; apply IH; lia.
    - destruct (negb rooted); apply IH; lia. }
  match goal with
  | |- context [path.copy_element (c :: p1) ?o] =>
    destruct (copy_element_spec (c :: p1) o) as (elem & p' & Hp & _ & He & ->)
  end.
  assert (length p' ≤ length p1).
  { destruct elem as [|e elem].
    - simpl in Hp. subst p'. simpl in He. congruence.
    - apply (f_equal length) in Hp. simpl in Hp.
      rewrite length_app in Hp. lia. }
  apply IH; lia.
Qed.

Lemma rooted_buf_cons (c : gostring) (cs : list gostring) :
  rooted_buf (c :: cs) =
    rev c ++ slash :: match cs with [] => [] | _ :: _ => rooted_buf cs end.
Proof. destruct cs; reflexivity. Qed.

Lemma rooted_buf_length (c : gostring) (cs : list gostring) :
  c ≠ [] → 2 ≤ length (rooted_buf (c :: cs)).
Proof.
  intros Hc. rewrite rooted_buf_cons, length_app, length_rev. simpl.
  destruct c; [congruence | simpl; lia].
Qed.

Lemma rooted_buf_nonempty (cs : list gostring) : rooted_buf cs ≠ [].
Proof.
  destruct cs as [|c cs]; [discriminate|].
  rewrite rooted_buf_cons. intros E. apply app_eq_nil in E as [_ E]. discriminate.
Qed.

(** The loop of [path.Clean] on a rooted path keeps a stack of real
    elements, and the bytes of the elements are bytes of the path. *)
Lemma clean_loop_rooted (fuel : nat) :
  ∀ (p : gostring) (cs : list gostring),
    length p ≤ fuel → Forall real cs →
    ∃ cs', Forall real cs' ∧
      path.clean_loop fuel true p (rooted_buf cs) 1 = rooted_buf cs' ∧
      ∀ x, x ∈ concat cs' → x ∈ p ∨ x ∈ concat cs.
Proof.
  induction fuel as [|fuel IH]; intros p cs Hlen Hcs.
  { destruct p; [|simpl in Hlen; lia]. exists cs. simpl. auto. }
  destruct p as [|c p1]; [exists cs; simpl; auto|].
  simpl in Hlen. cbn [path.clean_loop].
  destruct (Ascii.eqb c slash) eqn:Ec.
  { destruct (IH p1 cs) as (cs' & H1 & H2 & H3); [lia|auto|].
    exists cs'. repeat split; auto. intros x Hx.
    destruct (H3 x Hx); [left; right|right]; auto. }
  destruct (Ascii.eqb c dot && path.end_or_slash p1) eqn:Edot.
  { destruct (IH p1 cs) as (cs' & H1 & H2 & H3); [lia|auto|].
    exists cs'. repeat split; auto. intros x Hx.
    destruct (H3 x Hx); [left; right|right]; auto. }
  destruct (Ascii.eqb c dot &&
            match p1 with
            | c1 :: p2 => Ascii.eqb c1 dot && path.end_or_slash p2
            | [] => false
            end) eqn:Edd.
  { (* .. element *)
    destruct p1 as [|c1 p2]; [rewrite andb_false_r in Edd; discriminate|].
    cbn [tail].
    destruct cs as [|c' cs'].
    - simpl. destruct (IH p2 []) as (cs'' & H1 & H2 & H3);
        [simpl in Hlen; lia|auto|].
      exists cs''. repeat split; auto. intros x Hx.
      destruct (H3 x Hx); [left; right; right|right]; auto.
    - apply Forall_cons in Hcs as [Hc' Hcs'].
      destruct Hc' as (Hne & Hns & _).
      pose proof (rooted_buf_length c' cs' Hne) as Hl.
      replace (1 <? length (rooted_buf (c' :: cs')))%nat with true
        by (symmetry; apply Nat.ltb_lt; lia).
      rewrite rooted_buf_cons.
      destruct (rev c') as [|c0 l] eqn:Erev.
      { exfalso. apply Hne. rewrite <- (rev_involutive c'), Erev. reflexivity. }
      assert (Hin : ∀ y, y ∈ c0 :: l → y ∈ c').
      { intros y Hy. apply (proj1 (elem_of_rev y c')). by rewrite Erev. }
      cbn [app]. rewrite backtrack_element.
      2:{ intros ->. apply Hns, Hin. left. }
      2:{ intros Hs. apply Hns, Hin. by right. }
      assert (Hb : match match cs' with [] => [] | _ :: _ => rooted_buf cs' end
                   with [] => [slash] | _ :: _ =>
                     match cs' with [] => [] | _ :: _ => rooted_buf cs' end
                   end = rooted_buf cs').
      { destruct cs' as [|c'' cs'']; [reflexivity|].
        pose proof (rooted_buf_nonempty (c'' :: cs'')).
        destruct (rooted_buf (c'' :: cs'')); congruence. }
      rewrite Hb.
      destruct (IH p2 cs') as (cs'' & H1 & H2 & H3);
        [simpl in Hlen; lia|auto|].
      exists cs''. repeat split; auto. intros x Hx.
      destruct (H3 x Hx); [left; right; right|right]; auto.
      simpl. apply elem_of_app. by right. }
  (* real path element *)
  destruct (copy_element_spec (c :: p1)
    (if true && negb (length (rooted_buf cs) =? 1)%nat
        || negb true && negb (length (rooted_buf cs) =? 0)%nat
     then slash :: rooted_buf cs else rooted_buf cs))
    as (elem & p' & Hp & Hns & Hend & Hcopy).
  rewrite Hcopy.
  assert (Hne : elem ≠ []).
  { intros ->. simpl in Hp. subst p'. simpl in Hend. congruence. }
  assert (Hreal : real elem).
  { repeat split; auto.
    - intros ->. simpl in Hp. injection Hp as -> ->.
      rewrite Hend in Edot. unfold dot in Edot. simpl in Edot. discriminate.
    - intros ->. simpl in Hp. injection Hp as -> ->.
      rewrite Hend in Edd. unfold dot in Edd. simpl in Edd. discriminate. }
  assert (Hbuf : rev elem ++
      (if true && negb (length (rooted_buf cs) =? 1)%nat
          || negb true && negb (length (rooted_buf cs) =? 0)%nat
       then slash :: rooted_buf cs else rooted_buf cs)
      = rooted_buf (elem :: cs)).
  { destruct cs as [|c' cs']; [reflexivity|].
    apply Forall_cons in Hcs as [(Hc' & _) _].
    pose proof (rooted_buf_length c' cs' Hc') as Hl.
    replace (length (rooted_buf (c' :: cs')) =? 1)%nat with false
      by (symmetry; apply Nat.eqb_neq; lia).
    reflexivity. }
  rewrite Hbuf.
  destruct (IH p' (elem :: cs)) as (cs'' & H1 & H2 & H3).
  { apply (f_equal length) in Hp. rewrite length_app in Hp. simpl in Hp.
    destruct elem; [congruence|simpl in Hp; lia]. }
  { by apply Forall_cons. }
  exists cs''. repeat split; auto. intros x Hx.
  destruct (H3 x Hx) as [Hx'|Hx'].
  - left. rewrite Hp. apply elem_of_app. by right.
  - simpl in Hx'. apply elem_of_app in Hx' as [Hx'|Hx'].
    + left. rewrite Hp. apply elem_of_app. by left.
    + by right.
Qed.

(** [path.Clean] of a rooted path is the root followed by real elements
    joined by slashes, and the bytes of the elements are bytes of the
    path. *)
Lemma Clean_rooted (s : gostring) :
  ∃ cs, Forall real cs ∧
    path.Clean (slash :: s) = rev (rooted_buf cs) ∧
    ∀ x, x ∈ concat cs → x ∈ s.
Proof.
  unfold path.Clean. rewrite Ascii.eqb_refl.
  destruct (clean_loop_rooted (length (slash :: s)) s [])
    as (cs & H1 & H2 & H3); [simpl; lia | constructor |].
  change [slash] with (rooted_buf []). rewrite H2.
  exists cs. repeat split; auto.
  - pose proof (rooted_buf_nonempty cs).
    destruct (rooted_buf cs); [congruence | reflexivity].
  - intros x Hx. destruct (H3 x Hx) as [|Hn]; auto. inversion Hn.
Qed.

(** ** Lemmas on [filepath.Base] *)

Lemma Base_unfold (p : gostring) :
  p ≠ [] →
  filepath.Base p =
    match rev (filepath.last_element (filepath.strip_trailing (rev p))) with
    | [] => [slash]
    | c :: l => c :: l
    end.
Proof.
  intros Hp. destruct p as [|c p]; [congruence|].
  unfold filepath.Base, filepath.VolumeName.
  cbn [length]. rewrite drop_0, rev_involutive.
  destruct (rev _); reflexivity.
Qed.

Lemma last_element_app (l Y : gostring) :
  slash ∉ l → filepath.last_element (l ++ slash :: Y) = l.
Proof.
  induction l as [|c l IH]; intros Hl; simpl.
  - reflexivity.
  - apply not_elem_of_cons in Hl as [Hc Hl].
    unfold filepath.IsPathSeparator.
    destruct (Ascii.eqb slash c) eqn:E.
    + apply Ascii.eqb_eq in E. congruence.
    + rewrite IH; auto.
Qed.

Lemma last_element_no_slash (rp : gostring) :
  slash ∉ filepath.last_element rp.
Proof.
  induction rp as [|c rp IH]; simpl.
  - apply not_elem_of_nil.
  - unfold filepath.IsPathSeparator.
    destruct (Ascii.eqb slash c) eqn:E.
    + apply not_elem_of_nil.
    + apply Ascii.eqb_neq in E. apply not_elem_of_cons. split; auto.
Qed.

Lemma Base_rooted (cs : list gostring) :
  Forall real cs →
  filepath.Base (rev (rooted_buf cs)) =
    match cs with [] => [slash] | c :: _ => c end.
Proof.
  intros Hcs. rewrite Base_unfold.
  2:{ intros E. apply (rooted_buf_nonempty cs).
      rewrite <- (rev_involutive (rooted_buf cs)), E. reflexivity. }
  rewrite rev_involutive.
  destruct cs as [|c cs]; [reflexivity|].
  apply Forall_cons in Hcs as [(Hne & Hns & _) _].
  rewrite rooted_buf_cons.
  assert (Hs : filepath.strip_trailing
            (rev c ++ slash :: match cs with [] => [] | _ :: _ => rooted_buf cs end)
          = rev c ++ slash :: match cs with [] => [] | _ :: _ => rooted_buf cs end).
  { destruct (rev c) as [|c0 l] eqn:Erev.
    { exfalso. apply Hne. rewrite <- (rev_involutive c), Erev. reflexivity. }
    simpl. unfold filepath.IsPathSeparator.
    destruct (Ascii.eqb slash c0) eqn:E; [|reflexivity].
    apply Ascii.eqb_eq in E. exfalso. apply Hns.
    apply (proj1 (elem_of_rev slash c)). rewrite Erev, <- E. left. }
  rewrite Hs, last_element_app, rev_involutive.
  - destruct c; [congruence | reflexivity].
  - intros Hin. apply Hns. by apply (proj1 (elem_of_rev slash c)).
Qed.

(** ** Lemmas on [normalizeFilename] *)

(** What a success of [normalizeFilename] says. *)
Lemma normalizeFilename_Ok (s r : gostring) :
  normalizeFilename s = Ok r →
  real r ∧ (NUL ∉ r) ∧
  r = filepath.Base (path.Clean (slash :: s)) ∧
  ∃ d, path.Clean (slash :: s) = d ++ slash :: r.
Proof.
  unfold normalizeFilename.
  destruct (bool_decide (s = []) || strings.HasSuffix s [slash]
            || strings.Contains s [NUL]) eqn:Eg; [discriminate|].
  apply orb_false_iff in Eg as [_ Enul].
  assert (Hnul : NUL ∉ s).
  { intros Hin. apply Contains_byte in Hin. congruence. }
  destruct (Clean_rooted s) as (cs & Hcs & HC & Hbytes).
  rewrite HC, Base_rooted by auto.
  destruct cs as [|c cs].
  { rewrite (bool_decide_eq_true_2 ([slash] = [slash]) eq_refl).
    rewrite orb_true_r. discriminate. }
  destruct (_ || _); [discriminate|]. intros [= <-].
  pose proof Hcs as Hcs'. apply Forall_cons in Hcs' as [Hc _].
  repeat split; try apply Hc.
  - intros Hin. apply Hnul, Hbytes. simpl. apply elem_of_app. by left.
  - rewrite rooted_buf_cons.
    exists (rev match cs with [] => [] | _ :: _ => rooted_buf cs end).
    rewrite rev_app_distr, rev_involutive. simpl.
    rewrite <- app_assoc. reflexivity.
Qed.

Lemma copy_element_no_slash (p out : gostring) :
  slash ∉ p → path.copy_element p out = ([], rev p ++ out).
Proof.
  revert out. induction p as [|c p IH]; intros out Hp; simpl.
  - reflexivity.
  - apply not_elem_of_cons in Hp as [Hc Hp].
    replace (Ascii.eqb c slash) with false
      by (symmetry; apply eqb_slash_false; congruence).
    rewrite IH by auto. rewrite <- app_assoc. reflexivity.
Qed.

Lemma end_or_slash_no_slash (p : gostring) :
  slash ∉ p → path.end_or_slash p = true → p = [].
Proof.
  destruct p as [|c p]; [reflexivity|]. simpl. intros Hn E.
  apply eqb_slash_true in E. subst c. exfalso. apply Hn. left.
Qed.

(** [path.Clean] leaves a single real element under the root as it is. *)
Lemma Clean_real (r : gostring) :
  real r → path.Clean (slash :: r) = slash :: r.
Proof.
  intros (Hne & Hns & Hd & Hdd).
  unfold path.Clean. rewrite Ascii.eqb_refl.
  destruct r as [|c p1]; [congruence|].
  cbn [length path.clean_loop].
  pose proof Hns as Hns'. apply not_elem_of_cons in Hns' as [Hc Hp1].
  replace (Ascii.eqb c slash) with false
    by (symmetry; apply eqb_slash_false; congruence).
  destruct (Ascii.eqb c dot && path.end_or_slash p1) eqn:Edot.
  { apply andb_true_iff in Edot as [E1 E2]. apply Ascii.eqb_eq in E1.
    apply end_or_slash_no_slash in E2; auto. subst. congruence. }
  destruct (Ascii.eqb c dot &&
            match p1 with
            | c1 :: p2 => Ascii.eqb c1 dot && path.end_or_slash p2
            | [] => false
            end) eqn:Edd.
  { destruct p1 as [|c1 p2]; [rewrite andb_false_r in Edd; discriminate|].
    apply andb_true_iff in Edd as [E1 E2].
    apply andb_true_iff in E2 as [E2 E3].
    apply Ascii.eqb_eq in E1, E2.
    apply not_elem_of_cons in Hp1 as [_ Hp2].
    apply end_or_slash_no_slash in E3; auto. subst. congruence. }
  cbn [length Nat.eqb negb andb orb].
  rewrite copy_element_no_slash by auto.
  destruct (length p1); cbn [path.clean_loop];
    (destruct (length _ =? 0)%nat eqn:El;
     [apply Nat.eqb_eq in El; rewrite length_app in El; simpl in El; lia|]);
    rewrite rev_app_distr, rev_involutive; reflexivity.
Qed.

(** [normalizeFilename] returns a real element without a null byte as it
    is. *)
Lemma normalizeFilename_real (r : gostring) :
  real r → NUL ∉ r → normalizeFilename r = Ok r.
Proof.
  intros Hr Hnul. pose proof Hr as (Hne & Hns & Hd & Hdd).
  unfold normalizeFilename.
  rewrite (bool_decide_eq_false_2 _ Hne).
  destruct (strings.HasSuffix r [slash]) eqn:Es.
  { apply HasSuffix_byte in Es. exfalso. apply Hns.
    apply last_Some in Es as [l ->]. apply elem_of_app. right. left. }
  destruct (strings.Contains r [NUL]) eqn:Ec.
  { apply Contains_byte in Ec. contradiction. }
  cbn [orb]. rewrite Clean_real by auto.
  assert (HB : filepath.Base (slash :: r) = r).
  { pose proof (Base_rooted [r]) as HB. simpl in HB.
    rewrite rev_app_distr, rev_involutive in HB. simpl in HB.
    apply HB. constructor; auto. }
  rewrite HB.
  rewrite (bool_decide_eq_false_2 _ Hne), (bool_decide_eq_false_2 _ Hd).
  rewrite bool_decide_eq_false_2; [reflexivity|].
  intros ->. apply Hns. left.
Qed.

Lemma normalizeFilename_Err (s : gostring) (e : error) :
  normalizeFilename s = Err e → e = ErrNoFilename.
Proof.
  unfold normalizeFilename.
  repeat match goal with |- context [if ?b then _ else _] => destruct b end;
    congruence.
Qed.

(** ** The model on the tables of the tests of [path] and
    [path/filepath] *)

Example Clean_table :
  path.Clean (gostr "") = gostr "." ∧
  path.Clean (gostr "abc") = gostr "abc" ∧
  path.Clean (gostr "abc/def") = gostr "abc/def" ∧
  path.Clean (gostr "a/b/c") = gostr "a/b/c" ∧
  path.Clean (gostr ".") = gostr "." ∧
  path.Clean (gostr "..") = gostr ".." ∧
  path.Clean (gostr "../..") = gostr "../.." ∧
  path.Clean (gostr "../../abc") = gostr "../../abc" ∧
  path.Clean (gostr "/abc") = gostr "/abc" ∧
  path.Clean (gostr "/") = gostr "/" ∧
  path.Clean (gostr "abc/") = gostr "abc" ∧
  path.Clean (gostr "abc/def/") = gostr "abc/def" ∧
  path.Clean (gostr "a/b/c/") = gostr "a/b/c" ∧
  path.Clean (gostr "./") = gostr "." ∧
  path.Clean (gostr "../") = gostr ".." ∧
  path.Clean (gostr "../../") = gostr "../.." ∧
  path.Clean (gostr "/abc/") = gostr "/abc" ∧
  path.Clean (gostr "abc//def//ghi") = gostr "abc/def/ghi" ∧
  path.Clean (gostr "//abc") = gostr "/abc" ∧
  path.Clean (gostr "///abc") = gostr "/abc" ∧
  path.Clean (gostr "//abc//") = gostr "/abc" ∧
  path.Clean (gostr "abc//") = gostr "abc" ∧
  path.Clean (gostr "abc/./def") = gostr "abc/def" ∧
  path.Clean (gostr "/./abc/def") = gostr "/abc/def" ∧
  path.Clean (gostr "abc/.") = gostr "abc" ∧
  path.Clean (gostr "abc/def/ghi/../jkl") = gostr "abc/def/jkl" ∧
  path.Clean (gostr "abc/def/../ghi/../jkl") = gostr "abc/jkl" ∧
  path.Clean (gostr "abc/def/..") = gostr "abc" ∧
  path.Clean (gostr "abc/def/../..") = gostr "." ∧
  path.Clean (gostr "/abc/def/../..") = gostr "/" ∧
  path.Clean (gostr "abc/def/../../..") = gostr ".." ∧
  path.Clean (gostr "/abc/def/../../..") = gostr "/" ∧
  path.Clean (gostr "abc/def/../../../ghi/jkl/../../../mno") = gostr "../../mno" ∧
  path.Clean (gostr "abc/./../def") = gostr "def" ∧
  path.Clean (gostr "abc//./../def") = gostr "def" ∧
  path.Clean (gostr "abc/../../././../def") = gostr "../../def".
Proof. vm_compute. repeat split. Qed.

Example Base_table :
  filepath.Base (gostr "") = gostr "." ∧
  filepath.Base (gostr ".") = gostr "." ∧
  filepath.Base (gostr "/.") = gostr "." ∧
  filepath.Base (gostr "/") = gostr "/" ∧
  filepath.Base (gostr "////") = gostr "/" ∧
  filepath.Base (gostr "x/") = gostr "x" ∧
  filepath.Base (gostr "abc") = gostr "abc" ∧
  filepath.Base (gostr "abc/def") = gostr "def" ∧
  filepath.Base (gostr "a/b/.x") = gostr ".x" ∧
  filepath.Base (gostr "a/b/c.") = gostr "c." ∧
  filepath.Base (gostr "a/b/c.x") = gostr "c.x".
Proof. vm_compute. repeat split. Qed.

Example Dir_table :
  filepath.Dir (gostr "") = gostr "." ∧
  filepath.Dir (gostr ".") = gostr "." ∧
  filepath.Dir (gostr "/.") = gostr "/" ∧
  filepath.Dir (gostr "/") = gostr "/" ∧
  filepath.Dir (gostr "/foo") = gostr "/" ∧
  filepath.Dir (gostr "x/") = gostr "x" ∧
  filepath.Dir (gostr "abc") = gostr "." ∧
  filepath.Dir (gostr "abc/def") = gostr "abc" ∧
  filepath.Dir (gostr "a/b/.x") = gostr "a/b" ∧
  filepath.Dir (gostr "a/b/c.") = gostr "a/b" ∧
  filepath.Dir (gostr "a/b/c.x") = gostr "a/b".
Proof. vm_compute. repeat split. Qed.

(** ** The claims on [normalizeFilename] *)



(** C4: [normalizeFilename] fails with [ErrNoFilename] on the empty
    string, on every string that ends in a slash and on every string that
    holds a null byte; so do [""], ["a/"] and ["a\x00b"].  The guard that
    rejects them comes before the normalisation: on ["a/"] and
    ["a\x00b"] the normalised name would have passed the final check. *)
Theorem normalizeFilename_rejects :
  (∀ s : gostring,
     s = [] ∨ (∃ s', s = s' ++ [slash]) ∨ NUL ∈ s →
     normalizeFilename s = Err ErrNoFilename) ∧
  normalizeFilename (gostr "") = Err ErrNoFilename ∧
  normalizeFilename (gostr "a/") = Err ErrNoFilename ∧
  normalizeFilename [ascii_of_nat 97; NUL; ascii_of_nat 98] = Err ErrNoFilename ∧
  filepath.Base (path.Clean (slash :: gostr "a/")) = gostr "a" ∧
  filepath.Base (path.Clean (slash :: [ascii_of_nat 97; NUL; ascii_of_nat 98]))
    = [ascii_of_nat 97; NUL; ascii_of_nat 98].
Proof.
  split; [|repeat split; vm_compute; reflexivity].
  intros s Hs. unfold normalizeFilename.
  destruct Hs as [-> | [[s' ->] | Hnul]].
  - reflexivity.
  - replace (strings.HasSuffix (s' ++ [slash]) [slash]) with true.
    + rewrite orb_true_r. reflexivity.
    + symmetry. apply HasSuffix_byte. apply last_snoc.
  - apply Contains_byte in Hnul. rewrite Hnul, orb_true_r. reflexivity.
Qed.

Lemma normalizeFilename_rejects_witness :
  normalizeFilename (gostr "downloads/") = Err ErrNoFilename.
Proof.
  apply (proj1 normalizeFilename_rejects (gostr "downloads/")).
  right. left. exists (gostr "downloads"). vm_compute. reflexivity.
Defined.

(** C9: [normalizeFilename] is idempotent on its successes. *)
Theorem normalizeFilename_idempotent (s r : gostring) :
  normalizeFilename s = Ok r → normalizeFilename r = Ok r.
Proof.
  intros Hok.
  destruct (normalizeFilename_Ok s r Hok) as (Hreal & Hnul & _).
  by apply normalizeFilename_real.
Qed.

Lemma normalizeFilename_idempotent_witness :
  normalizeFilename (gostr "passwd") = Ok (gostr "passwd").
Proof.
  apply (normalizeFilename_idempotent (gostr "../../etc/passwd")).
  vm_compute. reflexivity.
Defined.

(** C10: only the forward slash is a separator for [normalizeFilename]: a
    name that is not empty and holds a backslash, but no forward slash and
    no null byte, is returned as it is, with its backslashes; so is
    ["..\..\x"]. *)
Theorem normalizeFilename_keeps_backslash :
  (∀ s : gostring,
     s ≠ [] → backslash ∈ s → slash ∉ s → NUL ∉ s →
     normalizeFilename s = Ok s ∧
     ∀ r, normalizeFilename s = Ok r → backslash ∈ r) ∧
  normalizeFilename (gostr "..\..\x") = Ok (gostr "..\..\x").
Proof.
  split; [|vm_compute; reflexivity].
  intros s Hne Hb Hns Hnul.
  assert (Hok : normalizeFilename s = Ok s).
  { apply normalizeFilename_real; auto.
    repeat split; auto.
    - intros ->. apply list_elem_of_singleton in Hb. discriminate.
    - intros ->. apply elem_of_cons in Hb as [Hb|Hb]; [discriminate|].
      apply list_elem_of_singleton in Hb. discriminate. }
  split; [exact Hok|]. intros r Hr. congruence.
Qed.

Lemma normalizeFilename_keeps_backslash_witness :
  normalizeFilename (gostr "C:\tmp\x.txt") = Ok (gostr "C:\tmp\x.txt") ∧
  ∀ r, normalizeFilename (gostr "C:\tmp\x.txt") = Ok r → backslash ∈ r.
Proof.
  apply (proj1 normalizeFilename_keeps_backslash (gostr "C:\tmp\x.txt")).
  - discriminate.
  - vm_compute. do 2 right. left.
  - vm_compute. intros Hin.
    repeat (apply elem_of_cons in Hin as [Hin|Hin]; [discriminate|]).
    inversion Hin.
  - vm_compute. intros Hin.
    repeat (apply elem_of_cons in Hin as [Hin|Hin]; [discriminate|]).
    inversion Hin.
Defined.

(** ** The claims on the functions that use the interfaces *)
Section UtilProperties.

Context {FS FileInfo File Time H Ctx : Type}.
Context {os : OS FS FileInfo File Time} {hash : Hash H}.
Variable time_Parse : gostring -> gostring -> result Time.
Variable ParseMediaType :
  gostring -> result (gostring * gmap gostring gostring).
Variable transfer_copy : Ctx -> H -> File -> M FS (H * (Z * goerror)).

(** C3: [guessFilename] prefers the [filename] parameter of the
    Content-Disposition header: when the header is there, parses as a
    media type and its [filename] parameter is not empty and is accepted
    by [normalizeFilename], the normalised parameter is returned whatever
    the path of the URL is (so [report.pdf] for a parameter
    [report.pdf]); when the header is absent, does not parse, or its
    [filename] is rejected by [normalizeFilename], the result is that of
    [normalizeFilename] on the path of the request URL, and it is
    [ErrNoFilename] when that fails too. *)
Theorem guessFilename_precedence (resp : Response) :
  let cd := Header_Get (Header resp) (gostr "Content-Disposition") in
  let url_path := Path (Request_URL (Response_Request resp)) in
  (∀ mt params r,
     cd ≠ [] → ParseMediaType cd = Ok (mt, params) →
     map_index params (gostr "filename") ≠ [] →
     normalizeFilename (map_index params (gostr "filename")) = Ok r →
     guessFilename ParseMediaType resp = Ok r) ∧
  (∀ mt params,
     cd ≠ [] → ParseMediaType cd = Ok (mt, params) →
     map_index params (gostr "filename") = gostr "report.pdf" →
     guessFilename ParseMediaType resp = Ok (gostr "report.pdf")) ∧
  (cd = [] ∨ (∃ e, ParseMediaType cd = Err e) ∨
   (∃ mt params e,
      ParseMediaType cd = Ok (mt, params) ∧
      normalizeFilename (map_index params (gostr "filename")) = Err e) →
   guessFilename ParseMediaType resp = normalizeFilename url_path ∧
   ((∃ e, normalizeFilename url_path = Err e) →
    guessFilename ParseMediaType resp = Err ErrNoFilename)).
Proof.
  intros cd url_path.
  assert (H1 : ∀ mt params r,
     cd ≠ [] → ParseMediaType cd = Ok (mt, params) →
     map_index params (gostr "filename") ≠ [] →
     normalizeFilename (map_index params (gostr "filename")) = Ok r →
     guessFilename ParseMediaType resp = Ok r).
  { intros mt params r Hcd Hp Hf Hn. unfold guessFilename. fold cd.
    rewrite (bool_decide_eq_false_2 _ Hcd), Hp.
    rewrite (bool_decide_eq_false_2 _ Hf), Hn. reflexivity. }
  split; [exact H1|]. split.
  { intros mt params Hcd Hp Hf. apply (H1 mt params); auto.
    - rewrite Hf. discriminate.
    - rewrite Hf. vm_compute. reflexivity. }
  intros Hfall.
  assert (E : guessFilename ParseMediaType resp = normalizeFilename url_path).
  { unfold guessFilename. fold cd. fold url_path.
    destruct Hfall as [-> | [[e He] | (mt & params & e & Hp & Hn)]].
    - reflexivity.
    - rewrite He. destruct (negb _); reflexivity.
    - rewrite Hp, Hn. destruct (negb _); [|reflexivity].
      destruct (negb _); reflexivity. }
  split; [exact E|].
  intros [e He]. rewrite E, He. f_equal.
  by apply (normalizeFilename_Err url_path).
Qed.

(** C7: for a response without a Content-Disposition header whose
    request URL is [/files/data.csv?x=1], that is with the path
    [/files/data.csv] (the query string [x=1] is held apart from the
    path, in [RawQuery]), [guessFilename] returns [data.csv]: the query
    string is no part of the name. *)
Theorem guessFilename_url_path (resp : Response) :
  Header_Get (Header resp) (gostr "Content-Disposition") = [] →
  Path (Request_URL (Response_Request resp)) = gostr "/files/data.csv" →
  guessFilename ParseMediaType resp = Ok (gostr "data.csv").
Proof.
  intros Hcd Hpath. unfold guessFilename. rewrite Hcd, Hpath.
  vm_compute. reflexivity.
Qed.

(** C5, as amended: [setLastModified] returns no error and leaves the
    file system as it is when the Last-Modified header is absent or does
    not parse with [http.TimeFormat]; when it parses, the call is
    [os.Chtimes(filename, lastmod, lastmod)], with the parsed time as
    access time and as modification time, and the result of that call,
    its error too, is the result. *)
Theorem setLastModified_spec (resp : Response) (filename : gostring)
    (fs : FS) :
  let header := Header_Get (Header resp) (gostr "Last-Modified") in
  (header = [] ∨ (∃ e, time_Parse TimeFormat header = Err e) →
   setLastModified time_Parse resp filename fs = (fs, None)) ∧
  (∀ lastmod,
     header ≠ [] → time_Parse TimeFormat header = Ok lastmod →
     setLastModified time_Parse resp filename fs
       = os_Chtimes filename lastmod lastmod fs).
Proof.
  intros header. unfold setLastModified. fold header. split.
  - intros [-> | [e He]]; [reflexivity|].
    rewrite He. destruct (bool_decide _); reflexivity.
  - intros lastmod Hne Hp.
    rewrite (bool_decide_eq_false_2 _ Hne), Hp. reflexivity.
Qed.

(** C6, as amended: with [dir] the parent of the path, when [os.Stat(dir)]
    fails because [dir] does not exist, [mkdirp] calls
    [os.MkdirAll(dir, 0755)] and returns no error when that succeeds and
    the error "error creating destination directory" when it fails;
    when [dir] exists and is not a directory, [mkdirp] panics; when
    [os.Stat(dir)] fails for another reason, [mkdirp] returns the error
    "error checking destination directory". *)
Theorem mkdirp_spec (path : gostring) (fs : FS) :
  let dir := filepath.Dir path in
  perm_0755 = 493%N ∧
  (∀ fs1 err,
     os_Stat dir fs = (fs1, Err err) → IsNotExist err = true →
     (∀ fs2, os_MkdirAll dir perm_0755 fs1 = (fs2, None) →
        mkdirp path fs = (fs2, Returns None)) ∧
     (∀ fs2 e, os_MkdirAll dir perm_0755 fs1 = (fs2, Some e) →
        mkdirp path fs =
          (fs2, Returns (Some
             (Errorf "error creating destination directory" e))))) ∧
  (∀ fs1 fi,
     os_Stat dir fs = (fs1, Ok fi) → IsDir fi = false →
     mkdirp path fs = (fs1, Panics "destination path is not directory")) ∧
  (∀ fs1 err,
     os_Stat dir fs = (fs1, Err err) → IsNotExist err = false →
     mkdirp path fs =
       (fs1, Returns (Some
          (Errorf "error checking destination directory" err)))).
Proof.
  intros dir. split; [reflexivity|].
  unfold mkdirp, mbind, M_bind, mret, M_ret. fold dir.
  split; [|split].
  - intros fs1 err Hs Hn. rewrite Hs, Hn. simpl.
    split; [intros fs2 Hm | intros fs2 e Hm]; rewrite Hm; reflexivity.
  - intros fs1 fi Hs Hd. rewrite Hs, Hd. reflexivity.
  - intros fs1 err Hs Hn. rewrite Hs, Hn. reflexivity.
Qed.

(** What [checksum] returns once the file is open. *)
Lemma checksum_open (ctx : Ctx) (filename : gostring) (h : H)
    (fs fs1 fs2 fs3 : FS) (f : File) (h' : H) (n : Z) (e ec : goerror) :
  os_Open filename fs = (fs1, Ok f) →
  transfer_copy ctx h f fs1 = (fs2, (h', (n, e))) →
  File_Close f fs2 = (fs3, ec) →
  checksum transfer_copy ctx filename h fs =
    (fs3, (h', (match e with Some _ => [] | None => Hash_Sum h' [] end, ec))).
Proof.
  intros Ho Hc Hcl. unfold checksum, mbind, M_bind, mret, M_ret.
  rewrite Ho, Hc. destruct e; rewrite Hcl; reflexivity.
Qed.

(** C8: once the file is open, the error [checksum] returns is the
    result of [f.Close()], whatever the copy returned; when the copy
    succeeds and [Close] fails, [checksum] returns the digest
    [h.Sum(nil)], which is not empty for a hash of positive size, with
    the error of [Close]. *)
Theorem checksum_error_is_Close (ctx : Ctx) (filename : gostring) (h : H)
    (fs fs1 fs2 fs3 : FS) (f : File) (h' : H) (n : Z) (e ec : goerror) :
  os_Open filename fs = (fs1, Ok f) →
  transfer_copy ctx h f fs1 = (fs2, (h', (n, e))) →
  File_Close f fs2 = (fs3, ec) →
  (checksum transfer_copy ctx filename h fs).2.2.2 = ec ∧
  (e = None → ec ≠ None →
   (checksum transfer_copy ctx filename h fs).2.2 = (Hash_Sum h' [], ec) ∧
   (0 < Hash_Size h' → Hash_Sum h' [] ≠ [])).
Proof.
  intros Ho Hc Hcl. rewrite (checksum_open _ _ _ _ _ _ _ _ _ _ _ _ Ho Hc Hcl).
  split; [reflexivity|]. intros -> _. split; [reflexivity|].
  intros Hsz E. pose proof (Hash_Sum_length h' []) as Hl.
  rewrite E in Hl. simpl in Hl. lia.
Qed.

End UtilProperties.

(** ** The claims on the file system in memory *)

Lemma guessFilename_precedence_witness :
  guessFilename Sim.ParseMediaType
    (Sim.response
       [(gostr "Content-Disposition", [Sim.attachment (gostr "report.pdf")])]
       (gostr "/archive/latest.tar.gz") [])
  = Ok (gostr "report.pdf").
Proof.
  apply (proj1 (guessFilename_precedence Sim.ParseMediaType
           (Sim.response
              [(gostr "Content-Disposition",
                [Sim.attachment (gostr "report.pdf")])]
              (gostr "/archive/latest.tar.gz") []))
         (gostr "attachment")
         {[ gostr "filename" := gostr "report.pdf" ]}).
  - vm_compute. discriminate.
  - vm_compute. reflexivity.
  - vm_compute. discriminate.
  - vm_compute. reflexivity.
Defined.

(** A question mark that is part of the path itself (written [%3F] in
    the URL) is no query string, and is kept as any other byte. *)
Lemma guessFilename_question_mark_in_path :
  guessFilename Sim.ParseMediaType
    (Sim.response [] (gostr "/files/data.csv?x=1") [])
  = Ok (gostr "data.csv?x=1") ∧
  guessFilename Sim.ParseMediaType
    (Sim.response [] (gostr "/files/data.csv?x=1") [])
  ≠ Ok (gostr "data.csv").
Proof. split; vm_compute; [reflexivity | discriminate]. Qed.

Lemma guessFilename_url_path_witness :
  guessFilename Sim.ParseMediaType
    (Sim.response [] (gostr "/files/data.csv") (gostr "x=1"))
  = Ok (gostr "data.csv").
Proof.
  apply (guessFilename_url_path Sim.ParseMediaType
           (Sim.response [] (gostr "/files/data.csv") (gostr "x=1")));
    vm_compute; reflexivity.
Defined.

(** C5, as stated, fails: a header that parses does not always put the
    parsed time on the file.  [Mon, 01 Jan 0001 00:00:00 GMT] parses to
    the zero [time.Time], for which [os.Chtimes] leaves both times of the
    file as they were; [Fri, 31 Dec 9999 23:59:59 GMT] parses to a time
    whose count of nanoseconds does not fit an [int64], and [os.Chtimes]
    writes the wrapped count, a time in the year 1816. *)
Lemma setLastModified_times_not_parsed :
  (Sim.time_Parse TimeFormat (gostr "Mon, 01 Jan 0001 00:00:00 GMT")
     = Ok Sim.zero_time ∧
   setLastModified Sim.time_Parse
     (Sim.response
        [(gostr "Last-Modified", [gostr "Mon, 01 Jan 0001 00:00:00 GMT"])]
        (gostr "/f.bin") [])
     (gostr "/srv/data/f.bin") Sim.fs0
   = (Sim.fs0, None) ∧
   Sim.times_of (gostr "/srv/data/f.bin") Sim.fs0 = Some (0, 0)%Z ∧
   (0 ≠ Sim.zero_time * 1000000000)%Z) ∧
  (Sim.time_Parse TimeFormat (gostr "Fri, 31 Dec 9999 23:59:59 GMT")
     = Ok 253402300799%Z ∧
   Sim.times_of (gostr "/srv/data/f.bin")
     (setLastModified Sim.time_Parse
        (Sim.response
           [(gostr "Last-Modified", [gostr "Fri, 31 Dec 9999 23:59:59 GMT"])]
           (gostr "/f.bin") [])
        (gostr "/srv/data/f.bin") Sim.fs0).1
   = Some (-4852116232933722624, -4852116232933722624)%Z ∧
   (-4852116232933722624 ≠ 253402300799 * 1000000000)%Z).
Proof. repeat split; vm_compute; (reflexivity || discriminate). Qed.

Lemma setLastModified_spec_witness :
  setLastModified Sim.time_Parse
    (Sim.response
       [(gostr "Last-Modified", [gostr "Wed, 21 Oct 2015 07:28:00 GMT"])]
       (gostr "/f.bin") [])
    (gostr "/srv/data/f.bin") Sim.fs0
  = (<[gostr "/srv/data/f.bin" :=
         Sim.FileNode (gostr "hello") 1445412480000000000
           1445412480000000000 false]> Sim.fs0,
     None).
Proof.
  rewrite (proj2 (setLastModified_spec Sim.time_Parse
             (Sim.response
                [(gostr "Last-Modified",
                  [gostr "Wed, 21 Oct 2015 07:28:00 GMT"])]
                (gostr "/f.bin") [])
             (gostr "/srv/data/f.bin") Sim.fs0) 1445412480%Z).
  - vm_compute. reflexivity.
  - vm_compute. discriminate.
  - vm_compute. reflexivity.
Defined.

(** C6, as stated, fails: the parent [/srv/ro/new] does not exist, it
    cannot be created under [/srv/ro], which may not be written, and
    [mkdirp] returns an error. *)
Lemma mkdirp_absent_parent_error :
  os_Stat (filepath.Dir (gostr "/srv/ro/new/file.bin")) Sim.fs0
    = (Sim.fs0, Err (PathError "stat" (gostr "/srv/ro/new") ENOENT)) ∧
  IsNotExist (PathError "stat" (gostr "/srv/ro/new") ENOENT) = true ∧
  mkdirp (gostr "/srv/ro/new/file.bin") Sim.fs0
    = (Sim.fs0,
       Returns (Some (Errorf "error creating destination directory"
                        (PathError "mkdir" (gostr "/srv/ro/new") EACCES)))) ∧
  (mkdirp (gostr "/srv/ro/new/file.bin") Sim.fs0).2 ≠ Returns None.
Proof. repeat split; vm_compute; (reflexivity || discriminate). Qed.

Lemma mkdirp_spec_witness :
  mkdirp (gostr "/srv/data/new/sub/file.bin") Sim.fs0
  = (<[gostr "/srv/data/new/sub" := Sim.DirNode 493]>
       (<[gostr "/srv/data/new" := Sim.DirNode 493]> Sim.fs0),
     Returns None).
Proof.
  apply (proj1 (proj1 (proj2 (mkdirp_spec (os := Sim.sim_OS)
                                (gostr "/srv/data/new/sub/file.bin") Sim.fs0))
                 Sim.fs0
                 (PathError "stat" (gostr "/srv/data/new/sub") ENOENT)
                 ltac:(vm_compute; reflexivity) ltac:(reflexivity))).
  vm_compute. reflexivity.
Defined.

(** C1 fails on the code: the file opens, the copy fails (the context is
    cancelled, or the read fails, here on a directory), and [checksum]
    returns no digest and no error, because the deferred [f.Close()]
    that succeeds puts [nil] in the place of the error of the copy. *)
Theorem checksum_drops_copy_error :
  Sim.copy (H := Sim.sum8) (Some 0) 0%N
    (Sim.mkFile (gostr "/srv/data/f.bin") (Some (gostr "hello"))) Sim.fs0
    = (Sim.fs0, (0%N, (0%Z, Some Canceled))) ∧
  checksum Sim.copy (Some 0) (gostr "/srv/data/f.bin") 0%N Sim.fs0
    = (Sim.fs0, (0%N, ([], None))) ∧
  Sim.copy (H := Sim.sum8) None 0%N
    (Sim.mkFile (gostr "/srv/data") None) Sim.fs0
    = (Sim.fs0, (0%N, (0%Z, Some (PathError "read" (gostr "/srv/data") EISDIR)))) ∧
  checksum Sim.copy None (gostr "/srv/data") 0%N Sim.fs0
    = (Sim.fs0, (0%N, ([], None))).
Proof. repeat split; vm_compute; reflexivity. Qed.

Lemma checksum_error_is_Close_witness :
  (checksum Sim.copy None (gostr "/srv/data/bad.bin") 0%N Sim.fs0).2.2.2
    = Some (PathError "close" (gostr "/srv/data/bad.bin") EIO) ∧
  (@None error = None →
   Some (PathError "close" (gostr "/srv/data/bad.bin") EIO) ≠ None →
   (checksum Sim.copy None (gostr "/srv/data/bad.bin") 0%N Sim.fs0).2.2
     = (Hash_Sum 20%N [],
        Some (PathError "close" (gostr "/srv/data/bad.bin") EIO)) ∧
   (0 < Hash_Size 20%N → Hash_Sum 20%N [] ≠ [])).
Proof.
  apply (checksum_error_is_Close Sim.copy None (gostr "/srv/data/bad.bin")
           0%N Sim.fs0 Sim.fs0 Sim.fs0 Sim.fs0
           (Sim.mkFile (gostr "/srv/data/bad.bin") (Some (gostr "hello")))
           20%N 5%Z None
           (Some (PathError "close" (gostr "/srv/data/bad.bin") EIO)));
    vm_compute; reflexivity.
Defined.

(** ** [path.Clean] on a rooted path, element by element *)

Lemma elements_element (e q : gostring) :
  slash ∉ e → path.end_or_slash q = true →
  elements (e ++ q) = e :: tail (elements q).
Proof.
  intros He Hq. induction e as [|c e IH]; simpl.
  - destruct q as [|d q]; [reflexivity|]. simpl in Hq |- *.
    rewrite Hq. reflexivity.
  - apply not_elem_of_cons in He as [Hc He].
    replace (Ascii.eqb c slash) with false
      by (symmetry; apply eqb_slash_false; congruence).
    rewrite IH by auto. reflexivity.
Qed.

Lemma clean_step_nil (stack : list gostring) : clean_step stack [] = stack.
Proof. reflexivity. Qed.

Lemma foldl_elements_tail (stack : list gostring) (q : gostring) :
  path.end_or_slash q = true →
  foldl clean_step stack (tail (elements q))
  = foldl clean_step stack (elements q).
Proof.
  intros Hq. destruct q as [|d q]; [reflexivity|].
  simpl in Hq |- *. rewrite Hq. reflexivity.
Qed.

Lemma foldl_elements_element (stack : list gostring) (e q : gostring) :
  slash ∉ e → path.end_or_slash q = true →
  foldl clean_step stack (elements (e ++ q))
  = foldl clean_step (clean_step stack e) (elements q).
Proof.
  intros He Hq. rewrite elements_element by auto. simpl.
  by apply foldl_elements_tail.
Qed.

Lemma clean_step_real (stack : list gostring) (e : gostring) :
  real e → clean_step stack e = e :: stack.
Proof.
  intros (Hne & _ & Hd & Hdd). unfold clean_step.
  rewrite (bool_decide_eq_false_2 _ Hne), (bool_decide_eq_false_2 _ Hd).
  rewrite (bool_decide_eq_false_2 _ Hdd). reflexivity.
Qed.

Lemma clean_step_keeps_real (stack : list gostring) (e : gostring) :
  slash ∉ e → Forall real stack → Forall real (clean_step stack e).
Proof.
  intros He Hs. unfold clean_step.
  destruct (bool_decide (e = [])) eqn:E1; [exact Hs|].
  destruct (bool_decide (e = [dot])) eqn:E2; [exact Hs|].
  destruct (bool_decide (e = [dot; dot])) eqn:E3.
  - destruct stack; [constructor|]. by apply Forall_cons in Hs as [_ Hs].
  - apply bool_decide_eq_false in E1, E2, E3.
    apply Forall_cons. repeat split; auto.
Qed.

Lemma elements_no_slash (p : gostring) : Forall (λ e, slash ∉ e) (elements p).
Proof.
  induction p as [|c p IH]; simpl.
  - repeat constructor. apply not_elem_of_nil.
  - destruct (Ascii.eqb c slash) eqn:E.
    + constructor; [apply not_elem_of_nil | exact IH].
    + apply eqb_slash_false in E.
      destruct (elements p) as [|e es].
      * repeat constructor. intros Hin.
        apply list_elem_of_singleton in Hin. congruence.
      * apply Forall_cons in IH as [He Hes]. constructor; [|exact Hes].
        apply not_elem_of_cons. split; [congruence | exact He].
Qed.

Lemma foldl_clean_step_real (es : list gostring) :
  ∀ stack, Forall (λ e, slash ∉ e) es → Forall real stack →
    Forall real (foldl clean_step stack es).
Proof.
  induction es as [|e es IH]; intros stack Hes Hs; simpl; [exact Hs|].
  apply Forall_cons in Hes as [He Hes].
  apply IH; [exact Hes | by apply clean_step_keeps_real].
Qed.

Lemma clean_stack_real (s : gostring) : Forall real (clean_stack s).
Proof.
  apply foldl_clean_step_real; [apply elements_no_slash | constructor].
Qed.

(** Taking the last element off the buffer. *)
Lemma backtrack_rooted_buf (c : gostring) (cs : list gostring)
    (c0 : ascii) (out' : gostring) :
  real c → rooted_buf (c :: cs) = c0 :: out' →
  path.backtrack 1 c0 out' = rooted_buf cs.
Proof.
  intros (Hne & Hns & _) Hout. rewrite rooted_buf_cons in Hout.
  destruct (rev c) as [|r0 l] eqn:Erev.
  { exfalso. apply Hne. rewrite <- (rev_involutive c), Erev. reflexivity. }
  assert (Hin : ∀ y, y ∈ r0 :: l → y ∈ c).
  { intros y Hy. apply (proj1 (elem_of_rev y c)). by rewrite Erev. }
  simpl in Hout. injection Hout as <- <-.
  rewrite backtrack_element.
  - destruct cs as [|c' cs']; [reflexivity|].
    pose proof (rooted_buf_nonempty (c' :: cs')).
    destruct (rooted_buf (c' :: cs')); congruence.
  - intros ->. apply Hns, Hin. left.
  - intros Hs. apply Hns, Hin. by right.
Qed.

(** Putting an element on the buffer. *)
Lemma push_rooted_buf (c : gostring) (cs : list gostring) :
  Forall real cs →
  rev c ++
    (if true && negb (length (rooted_buf cs) =? 1)%nat
        || negb true && negb (length (rooted_buf cs) =? 0)%nat
     then slash :: rooted_buf cs else rooted_buf cs)
  = rooted_buf (c :: cs).
Proof.
  intros Hcs. destruct cs as [|c' cs']; [reflexivity|].
  apply Forall_cons in Hcs as [(Hc' & _) _].
  pose proof (rooted_buf_length c' cs' Hc') as Hl.
  replace (length (rooted_buf (c' :: cs')) =? 1)%nat with false
    by (symmetry; apply Nat.eqb_neq; lia).
  reflexivity.
Qed.

Lemma copy_element_app (e q out : gostring) :
  slash ∉ e → path.end_or_slash q = true →
  path.copy_element (e ++ q) out = (q, rev e ++ out).
Proof.
  revert out. induction e as [|c e IH]; intros out He Hq; simpl.
  - destruct q as [|d q]; [reflexivity|]. simpl in Hq |- *.
    rewrite Hq. reflexivity.
  - apply not_elem_of_cons in He as [Hc He].
    replace (Ascii.eqb c slash) with false
      by (symmetry; apply eqb_slash_false; congruence).
    rewrite IH by auto. rewrite <- app_assoc. reflexivity.
Qed.

(** The loop of [path.Clean] on a rooted path runs [clean_step] over the
    elements of the path. *)
Lemma clean_loop_elements (fuel : nat) :
  ∀ (p : gostring) (cs : list gostring),
    length p ≤ fuel → Forall real cs →
    path.clean_loop fuel true p (rooted_buf cs) 1
    = rooted_buf (foldl clean_step cs (elements p)).
Proof.
  induction fuel as [|fuel IH]; intros p cs Hlen Hcs.
  { destruct p; [reflexivity | simpl in Hlen; lia]. }
  destruct p as [|c p1]; [reflexivity|].
  simpl in Hlen. cbn [path.clean_loop].
  destruct (Ascii.eqb c slash) eqn:Ec.
  { simpl. rewrite Ec. simpl. apply IH; [lia | exact Hcs]. }
  destruct (Ascii.eqb c dot && path.end_or_slash p1) eqn:Edot.
  { apply andb_true_iff in Edot as [E1 E2]. apply Ascii.eqb_eq in E1. subst c.
    change (dot :: p1) with ([dot] ++ p1).
    rewrite foldl_elements_element; auto.
    - apply IH; [lia | exact Hcs].
    - intros Hin. apply list_elem_of_singleton in Hin. discriminate. }
  destruct (Ascii.eqb c dot &&
            match p1 with
            | c1 :: p2 => Ascii.eqb c1 dot && path.end_or_slash p2
            | [] => false
            end) eqn:Edd.
  { destruct p1 as [|c1 p2]; [rewrite andb_false_r in Edd; discriminate|].
    apply andb_true_iff in Edd as [E1 E2].
    apply andb_true_iff in E2 as [E2 E3].
    apply Ascii.eqb_eq in E1, E2. subst c c1. cbn [tail].
    change (dot :: dot :: p2) with ([dot; dot] ++ p2).
    rewrite foldl_elements_element; auto.
    2:{ intros Hin. apply elem_of_cons in Hin as [Hin|Hin]; [discriminate|].
        apply list_elem_of_singleton in Hin. discriminate. }
    change (clean_step cs [dot; dot]) with (tail cs).
    destruct cs as [|c' cs'].
    - simpl. apply (IH p2 []); [simpl in Hlen; lia | constructor].
    - apply Forall_cons in Hcs as [Hc' Hcs'].
      pose proof (rooted_buf_length c' cs' (proj1 Hc')) as Hl.
      replace (1 <? length (rooted_buf (c' :: cs')))%nat with true
        by (symmetry; apply Nat.ltb_lt; lia).
      destruct (rooted_buf (c' :: cs')) as [|c0 out'] eqn:Ebuf;
        [simpl in Hl; lia|].
      rewrite (backtrack_rooted_buf c' cs' c0 out' Hc' Ebuf).
      apply IH; [simpl in Hlen; lia | exact Hcs']. }
  (* real path element *)
  destruct (copy_element_spec (c :: p1) [])
    as (elem & p' & Hp & Hns & Hend & _).
  assert (Hne : elem ≠ []).
  { intros ->. simpl in Hp. subst p'. simpl in Hend. congruence. }
  assert (Hreal : real elem).
  { repeat split; auto.
    - intros ->. simpl in Hp. injection Hp as -> ->.
      rewrite Hend in Edot. unfold dot in Edot. simpl in Edot. discriminate.
    - intros ->. simpl in Hp. injection Hp as -> ->.
      rewrite Hend in Edd. unfold dot in Edd. simpl in Edd. discriminate. }
  rewrite Hp, copy_element_app, push_rooted_buf by auto.
  rewrite foldl_elements_element, clean_step_real by auto.
  apply IH; [|by apply Forall_cons].
  apply (f_equal length) in Hp. rewrite length_app in Hp. simpl in Hp.
  destruct elem; [congruence | simpl in Hp; lia].
Qed.

Lemma Clean_rooted_buf (s : gostring) :
  path.Clean (slash :: s) = rev (rooted_buf (clean_stack s)).
Proof.
  unfold path.Clean. rewrite Ascii.eqb_refl.
  change [slash] with (rooted_buf []).
  rewrite clean_loop_elements; [|simpl; lia | constructor].
  fold (clean_stack s).
  pose proof (rooted_buf_nonempty (clean_stack s)).
  destruct (rooted_buf (clean_stack s)); [congruence | reflexivity].
Qed.

Lemma rooted_buf_path (cs : list gostring) :
  rev (rooted_buf cs) = rooted_path (rev cs).
Proof.
  destruct cs as [|c cs]; [reflexivity|].
  assert (Hj : rev (rooted_buf (c :: cs))
               = concat (map (cons slash) (rev (c :: cs)))).
  { revert c. induction cs as [|c2 cs IH]; intros c.
    - simpl. rewrite rev_app_distr, rev_involutive. simpl.
      rewrite app_nil_r. reflexivity.
    - change (rooted_buf (c :: c2 :: cs))
        with (rev c ++ slash :: rooted_buf (c2 :: cs)).
      rewrite rev_app_distr, rev_involutive.
      change (rev (slash :: rooted_buf (c2 :: cs)))
        with (rev (rooted_buf (c2 :: cs)) ++ [slash]).
      rewrite IH. change (rev (c :: c2 :: cs)) with (rev (c2 :: cs) ++ [c]).
      rewrite map_app, concat_app. simpl. rewrite app_nil_r, <- !app_assoc.
      reflexivity. }
  rewrite Hj. unfold rooted_path.
  destruct (rev (c :: cs)) eqn:E; [|reflexivity].
  apply (f_equal length) in E. rewrite length_rev in E. discriminate.
Qed.

Lemma elements_nonempty (p : gostring) : elements p ≠ [].
Proof.
  destruct p as [|c p]; simpl; [discriminate|].
  destruct (Ascii.eqb c slash); [discriminate|].
  destruct (elements p); discriminate.
Qed.

Lemma elements_app_slash (d q : gostring) :
  elements (d ++ slash :: q) = elements d ++ elements q.
Proof.
  induction d as [|c d IH]; simpl.
  - reflexivity.
  - rewrite IH. destruct (Ascii.eqb c slash); [reflexivity|].
    pose proof (elements_nonempty d).
    destruct (elements d); [congruence | reflexivity].
Qed.

Lemma elements_single (e : gostring) : slash ∉ e → elements e = [e].
Proof.
  intros He. rewrite <- (app_nil_r e) at 1.
  rewrite elements_element by auto. reflexivity.
Qed.

Lemma clean_stack_app_slash (d q : gostring) :
  clean_stack (d ++ slash :: q)
  = foldl clean_step (clean_stack d) (elements q).
Proof. unfold clean_stack. rewrite elements_app_slash. apply foldl_app. Qed.

Lemma foldl_clean_step_subset (es : list gostring) :
  ∀ stack e, e ∈ foldl clean_step stack es → e ∈ stack ∨ e ∈ es.
Proof.
  induction es as [|e' es IH]; intros stack e Hin; simpl in Hin; [by left|].
  destruct (IH _ _ Hin) as [Hs|Hs]; [|right; by right].
  unfold clean_step in Hs.
  destruct (_ || _); [by left|].
  destruct (bool_decide _).
  - left. destruct stack; [exact Hs | by right].
  - apply elem_of_cons in Hs as [->|Hs]; [right; left | by left].
Qed.

Lemma rejected_early_spec (s : gostring) :
  rejected_early s = false ↔ s ≠ [] ∧ last s ≠ Some slash ∧ (NUL ∉ s).
Proof.
  unfold rejected_early. rewrite !orb_false_iff, bool_decide_eq_false.
  split.
  - intros [[Hne Hs] Hc]. repeat split; auto.
    + intros Hl. apply HasSuffix_byte in Hl. congruence.
    + intros Hin. apply Contains_byte in Hin. congruence.
  - intros (Hne & Hl & Hn). repeat split; auto.
    + destruct (strings.HasSuffix s [slash]) eqn:E; [|reflexivity].
      apply HasSuffix_byte in E. contradiction.
    + destruct (strings.Contains s [NUL]) eqn:E; [|reflexivity].
      apply Contains_byte in E. contradiction.
Qed.

Lemma normalizeFilename_stack (s : gostring) :
  normalizeFilename s =
    if rejected_early s then Err ErrNoFilename
    else match clean_stack s with
         | [] => Err ErrNoFilename
         | c :: _ => Ok c
         end.
Proof.
  unfold normalizeFilename. fold (rejected_early s).
  destruct (rejected_early s); [reflexivity|].
  rewrite Clean_rooted_buf, Base_rooted by apply clean_stack_real.
  pose proof (clean_stack_real s) as Hr.
  destruct (clean_stack s) as [|c cs]; [reflexivity|].
  apply Forall_cons in Hr as [(Hne & Hns & Hd & _) _].
  rewrite (bool_decide_eq_false_2 _ Hne), (bool_decide_eq_false_2 _ Hd).
  rewrite bool_decide_eq_false_2; [reflexivity|].
  intros ->. apply Hns. left.
Qed.

(** ** Further properties of [path.Clean] and [normalizeFilename] *)

(** X1: [path.Clean] of a rooted path, as [normalizeFilename] calls it,
    is the rooted path of the elements that [clean_step] keeps: empty
    elements and [.] are dropped, [..] takes the element before it
    away, and no [..] element is left. *)
Theorem Clean_rooted_elements (s : gostring) :
  path.Clean (slash :: s) = rooted_path (rev (clean_stack s)) ∧
  Forall real (clean_stack s).
Proof.
  split; [|apply clean_stack_real].
  rewrite Clean_rooted_buf. apply rooted_buf_path.
Qed.

(** X2: [normalizeFilename] fails on a name that is empty, ends in a
    slash or holds a null byte, and otherwise returns the last element
    that the cleaning keeps, failing when none is kept. *)
Theorem normalizeFilename_spec (s : gostring) :
  normalizeFilename s =
    if bool_decide (s = []) || bool_decide (last s = Some slash)
       || bool_decide (NUL ∈ s)
    then Err ErrNoFilename
    else match clean_stack s with
         | [] => Err ErrNoFilename
         | c :: _ => Ok c
         end.
Proof.
  rewrite normalizeFilename_stack. unfold rejected_early.
  replace (strings.HasSuffix s [slash])
    with (bool_decide (last s = Some slash)).
  2:{ apply eq_true_iff_eq. rewrite bool_decide_eq_true.
      symmetry. apply HasSuffix_byte. }
  replace (strings.Contains s [NUL]) with (bool_decide (NUL ∈ s)).
  2:{ apply eq_true_iff_eq. rewrite bool_decide_eq_true.
      symmetry. apply Contains_byte. }
  reflexivity.
Qed.

(** X3: a name that [normalizeFilename] returns is never empty, never
    [.] or [..], and holds no slash and no null byte. *)
Theorem normalizeFilename_safe (s r : gostring) :
  normalizeFilename s = Ok r →
  r ≠ [] ∧ r ≠ [dot] ∧ r ≠ [dot; dot] ∧ (slash ∉ r) ∧ (NUL ∉ r).
Proof.
  intros Hok.
  destruct (normalizeFilename_Ok s r Hok) as ((H1 & H2 & H3 & H4) & H5 & _).
  auto.
Qed.

Lemma normalizeFilename_safe_witness :
  gostr "passwd" ≠ [] ∧ gostr "passwd" ≠ [dot] ∧
  gostr "passwd" ≠ [dot; dot] ∧ (slash ∉ gostr "passwd") ∧
  (NUL ∉ gostr "passwd").
Proof.
  apply (normalizeFilename_safe (gostr "../../etc/passwd")).
  vm_compute. reflexivity.
Defined.

(** X4: a name that [normalizeFilename] returns is one of the pieces
    between the slashes of its argument. *)
Theorem normalizeFilename_is_element (s r : gostring) :
  normalizeFilename s = Ok r → r ∈ elements s.
Proof.
  rewrite normalizeFilename_stack.
  destruct (rejected_early s); [discriminate|].
  destruct (clean_stack s) as [|c cs] eqn:E; [discriminate|].
  intros [= <-].
  destruct (foldl_clean_step_subset (elements s) [] c) as [Hin|Hin]; auto.
  - fold (clean_stack s). rewrite E. left.
  - inversion Hin.
Qed.

Lemma normalizeFilename_is_element_witness :
  gostr "c.txt" ∈ elements (gostr "/a/b/../c.txt").
Proof.
  apply (normalizeFilename_is_element (gostr "/a/b/../c.txt")).
  vm_compute. reflexivity.
Defined.

(** X5: the names that [normalizeFilename] returns as they are, are the
    names that are not empty, not [.] and not [..] and hold no slash and
    no null byte. *)
Theorem normalizeFilename_fixpoint (s : gostring) :
  normalizeFilename s = Ok s ↔ real s ∧ (NUL ∉ s).
Proof.
  split.
  - intros Hok. destruct (normalizeFilename_Ok s s Hok) as (Hr & Hn & _).
    auto.
  - intros [Hr Hn]. by apply normalizeFilename_real.
Qed.

(** X6: past its guard, [normalizeFilename] fails exactly when the
    cleaned path is the root. *)
Theorem normalizeFilename_fails_at_root (s : gostring) :
  s ≠ [] → last s ≠ Some slash → NUL ∉ s →
  (normalizeFilename s = Err ErrNoFilename
   ↔ path.Clean (slash :: s) = [slash]).
Proof.
  intros Hne Hl Hn.
  assert (Hg : rejected_early s = false) by (by apply rejected_early_spec).
  rewrite normalizeFilename_stack, Hg, Clean_rooted_buf.
  pose proof (clean_stack_real s) as Hr.
  destruct (clean_stack s) as [|c cs]; [split; reflexivity|].
  apply Forall_cons in Hr as [(Hc & _) _].
  split; [discriminate|]. intros E.
  apply (f_equal length) in E. rewrite length_rev in E.
  pose proof (rooted_buf_length c cs Hc) as Hlen.
  rewrite E in Hlen. simpl in Hlen. lia.
Qed.

Lemma normalizeFilename_fails_at_root_witness :
  normalizeFilename (gostr "a/b/../..") = Err ErrNoFilename
  ↔ path.Clean (slash :: gostr "a/b/../..") = [slash].
Proof.
  apply (normalizeFilename_fails_at_root (gostr "a/b/../.."));
    vm_compute; try discriminate.
  intros Hin.
  repeat (apply elem_of_cons in Hin as [Hin|Hin]; [discriminate|]).
  inversion Hin.
Defined.

(** X7: the directory part of a name is dropped: [normalizeFilename]
    returns what follows the last slash, whatever comes before it, when
    that is a name it accepts. *)
Theorem normalizeFilename_drops_directory (d r : gostring) :
  real r → NUL ∉ d → NUL ∉ r →
  normalizeFilename (d ++ slash :: r) = Ok r.
Proof.
  intros Hr Hd Hn. pose proof Hr as (Hne & Hns & _).
  assert (Hg : rejected_early (d ++ slash :: r) = false).
  { apply rejected_early_spec. repeat split.
    - intros E. apply app_eq_nil in E as [_ E]. discriminate.
    - destruct r as [|c r _] using rev_ind; [congruence|].
      change (d ++ slash :: r ++ [c]) with (d ++ (slash :: r) ++ [c]).
      rewrite app_assoc, last_snoc. intros [= ->].
      apply Hns. apply elem_of_app. right. left.
    - intros Hin. apply elem_of_app in Hin as [Hin|Hin]; [contradiction|].
      apply elem_of_cons in Hin as [Hin|Hin]; [discriminate | contradiction]. }
  rewrite normalizeFilename_stack, Hg, clean_stack_app_slash.
  rewrite elements_single by auto. simpl.
  rewrite clean_step_real by auto. reflexivity.
Qed.

Lemma normalizeFilename_drops_directory_witness :
  normalizeFilename (gostr "../../../root/.ssh" ++ slash :: gostr "id_rsa")
  = Ok (gostr "id_rsa").
Proof.
  apply normalizeFilename_drops_directory.
  - vm_compute. repeat split; try discriminate. intros Hin.
    repeat (apply elem_of_cons in Hin as [Hin|Hin]; [discriminate|]).
    inversion Hin.
  - vm_compute. intros Hin.
    repeat (apply elem_of_cons in Hin as [Hin|Hin]; [discriminate|]).
    inversion Hin.
  - vm_compute. intros Hin.
    repeat (apply elem_of_cons in Hin as [Hin|Hin]; [discriminate|]).
    inversion Hin.
Defined.





Lemma elements_slash (q : gostring) : elements (slash :: q) = [] :: elements q.
Proof. reflexivity. Qed.

Lemma foldl_elements_real_path (rest : list gostring) :
  ∀ (e1 : gostring) (stack : list gostring),
    Forall real (e1 :: rest) →
    foldl clean_step stack (elements (e1 ++ concat (map (cons slash) rest)))
    = rev rest ++ e1 :: stack.
Proof.
  induction rest as [|e2 rest IH]; intros e1 stack Hr;
    apply Forall_cons in Hr as [He1 Hr].
  - simpl. rewrite foldl_elements_element; [|apply He1 | reflexivity].
    rewrite clean_step_real by auto. reflexivity.
  - cbn [map concat]. rewrite foldl_elements_element;
      [|apply He1 | reflexivity].
    rewrite clean_step_real by auto.
    rewrite <- app_comm_cons, elements_slash. cbn [foldl].
    rewrite clean_step_nil, IH by auto.
    simpl. rewrite <- app_assoc. reflexivity.
Qed.

(** X9: cleaning a cleaned rooted path changes nothing. *)
Theorem Clean_rooted_idempotent (s : gostring) :
  path.Clean (path.Clean (slash :: s)) = path.Clean (slash :: s).
Proof.
  rewrite (Clean_rooted_buf s), rooted_buf_path.
  assert (Hr : Forall real (rev (clean_stack s))).
  { apply Forall_forall. intros x Hx.
    apply (proj1 (elem_of_rev x (clean_stack s))) in Hx.
    revert x Hx. apply Forall_forall, clean_stack_real. }
  destruct (rev (clean_stack s)) as [|e1 rest]; [vm_compute; reflexivity|].
  change (rooted_path (e1 :: rest))
    with (slash :: e1 ++ concat (map (cons slash) rest)) at 1.
  rewrite Clean_rooted_buf, rooted_buf_path. unfold clean_stack.
  rewrite foldl_elements_real_path by auto.
  rewrite rev_app_distr, rev_involutive. reflexivity.
Qed.

(** ** Further properties of [filepath.Base] and [filepath.Dir] *)

(** X10: [filepath.Base] never returns the empty string, returns a slash
    only as the whole result, and does not see a trailing slash. *)
Theorem Base_properties (p : gostring) :
  filepath.Base p ≠ [] ∧
  (slash ∈ filepath.Base p → filepath.Base p = [slash]) ∧
  (p ≠ [] → filepath.Base (p ++ [slash]) = filepath.Base p).
Proof.
  destruct p as [|c p].
  { cbn. repeat split.
    - discriminate.
    - intros Hin. apply list_elem_of_singleton in Hin. discriminate.
    - congruence. }
  rewrite Base_unfold by discriminate.
  pose proof (last_element_no_slash
                (filepath.strip_trailing (rev (c :: p)))) as Hns.
  repeat split.
  - destruct (rev (filepath.last_element _)); discriminate.
  - destruct (rev (filepath.last_element _)) eqn:E; [reflexivity|].
    intros Hin. exfalso. apply Hns.
    apply (proj1 (elem_of_rev slash _)). rewrite E. exact Hin.
  - intros _. rewrite Base_unfold.
    + rewrite rev_app_distr. reflexivity.
    + intros E. apply app_eq_nil in E as [_ E]. discriminate.
Qed.

Lemma before_last_element_app (l Y : gostring) :
  slash ∉ l → filepath.before_last_element (l ++ slash :: Y) = slash :: Y.
Proof.
  induction l as [|c l IH]; intros Hl; simpl.
  - reflexivity.
  - apply not_elem_of_cons in Hl as [Hc Hl].
    unfold filepath.IsPathSeparator.
    destruct (Ascii.eqb slash c) eqn:E.
    + apply Ascii.eqb_eq in E. congruence.
    + apply IH; auto.
Qed.

Lemma before_last_element_none (l : gostring) :
  slash ∉ l → filepath.before_last_element l = [].
Proof.
  induction l as [|c l IH]; intros Hl; simpl.
  - reflexivity.
  - apply not_elem_of_cons in Hl as [Hc Hl].
    unfold filepath.IsPathSeparator.
    destruct (Ascii.eqb slash c) eqn:E.
    + apply Ascii.eqb_eq in E. congruence.
    + apply IH; auto.
Qed.

Lemma not_elem_of_rev (x : ascii) (l : gostring) : x ∉ l → x ∉ rev l.
Proof. intros Hn Hin. apply Hn. by apply elem_of_rev. Qed.

Lemma Dir_join (dst name : gostring) :
  slash ∉ name →
  filepath.Dir (dst ++ slash :: name) = filepath.Clean (dst ++ [slash]).
Proof.
  intros Hn. unfold filepath.Dir, filepath.VolumeName.
  cbn [length]. rewrite drop_0, andb_false_r. cbn [app].
  rewrite rev_app_distr. cbn [rev]. rewrite <- app_assoc. cbn [app].
  rewrite before_last_element_app by (by apply not_elem_of_rev).
  cbn [rev]. rewrite rev_involutive. reflexivity.
Qed.

(** X11: the directory of a destination is the cleaned part before its
    last slash, whatever the name after it, and [.] when the destination
    holds no slash. *)
Theorem Dir_of_destination :
  (∀ dst name : gostring,
     slash ∉ name →
     filepath.Dir (dst ++ slash :: name) = path.Clean (dst ++ [slash])) ∧
  (∀ name : gostring, slash ∉ name → filepath.Dir name = [dot]).
Proof.
  split.
  - intros dst name Hn. by apply Dir_join.
  - intros name Hn. unfold filepath.Dir, filepath.VolumeName.
    cbn [length]. rewrite drop_0, andb_false_r. cbn [app].
    rewrite before_last_element_none by (by apply not_elem_of_rev).
    reflexivity.
Qed.

Lemma Dir_of_destination_witness :
  filepath.Dir (gostr "/srv/data/../files" ++ slash :: gostr "a.bin")
  = path.Clean (gostr "/srv/data/../files" ++ [slash]).
Proof.
  apply (proj1 Dir_of_destination).
  vm_compute. intros Hin.
  repeat (apply elem_of_cons in Hin as [Hin|Hin]; [discriminate|]).
  inversion Hin.
Defined.



(** ** Further properties of the functions that use the interfaces *)
Section UtilFurther.

Context {FS FileInfo File Time H Ctx : Type}.
Context {os : OS FS FileInfo File Time} {hash : Hash H}.
Variable time_Parse : gostring -> gostring -> result Time.
Variable ParseMediaType :
  gostring -> result (gostring * gmap gostring gostring).
Variable transfer_copy : Ctx -> H -> File -> M FS (H * (Z * goerror)).

(** X13: whatever the header parser returns, a name that
    [guessFilename] returns is never empty, never [.] or [..] and holds
    no slash and no null byte, and its only error is [ErrNoFilename]. *)
Theorem guessFilename_safe (resp : Response) :
  match guessFilename ParseMediaType resp with
  | Ok r => real r ∧ (NUL ∉ r)
  | Err e => e = ErrNoFilename
  end.
Proof.
  assert (Hn : ∀ s, match normalizeFilename s with
                    | Ok r => real r ∧ (NUL ∉ r)
                    | Err e => e = ErrNoFilename
                    end).
  { intros s. destruct (normalizeFilename s) as [r|e] eqn:E.
    - destruct (normalizeFilename_Ok s r E) as (Hr & Hnul & _). auto.
    - by apply (normalizeFilename_Err s). }
  unfold guessFilename.
  destruct (negb _); [|apply Hn].
  destruct (ParseMediaType _) as [[mt params]|e]; [|apply Hn].
  destruct (negb _); [|apply Hn].
  destruct (normalizeFilename (map_index params _)) as [r|e] eqn:E;
    [|apply Hn].
  destruct (normalizeFilename_Ok _ r E) as (Hr & Hnul & _). auto.
Qed.

(** X14: a Content-Disposition header never makes [guessFilename] fail:
    when the path of the URL gives a name, [guessFilename] returns a
    name, and when [guessFilename] fails, the path of the URL gives
    none. *)
Theorem guessFilename_fails_with_url (resp : Response) :
  (∀ r, normalizeFilename (Path (Request_URL (Response_Request resp))) = Ok r →
     ∃ r', guessFilename ParseMediaType resp = Ok r') ∧
  (∀ e, guessFilename ParseMediaType resp = Err e →
     normalizeFilename (Path (Request_URL (Response_Request resp)))
     = Err ErrNoFilename).
Proof.
  unfold guessFilename. split.
  - intros r Hr. rewrite Hr.
    destruct (negb _); [|eauto].
    destruct (ParseMediaType _) as [[mt params]|e]; [|eauto].
    destruct (negb _); [|eauto].
    destruct (normalizeFilename (map_index params _)); eauto.
  - intros e.
    assert (Hu : ∀ e, normalizeFilename
                        (Path (Request_URL (Response_Request resp))) = Err e →
                 normalizeFilename
                   (Path (Request_URL (Response_Request resp)))
                 = Err ErrNoFilename).
    { intros e' He'. rewrite He'. f_equal.
      by apply (normalizeFilename_Err _ _ He'). }
    destruct (negb _); [|apply Hu].
    destruct (ParseMediaType _) as [[mt params]|e']; [|apply Hu].
    destruct (negb _); [|apply Hu].
    destruct (normalizeFilename (map_index params _)); [discriminate|apply Hu].
Qed.

(** X15: [mkdirp] looks at the directory of the destination only: two
    destinations in one directory are treated alike. *)
Theorem mkdirp_ignores_filename (dst n1 n2 : gostring) (fs : FS) :
  slash ∉ n1 → slash ∉ n2 →
  mkdirp (dst ++ slash :: n1) fs = mkdirp (dst ++ slash :: n2) fs.
Proof.
  intros H1 H2. unfold mkdirp. rewrite !Dir_join by auto. reflexivity.
Qed.

(** X16: [mkdirp] panics only when [os.Stat] finds the parent and the
    parent is not a directory; nothing is created then. *)
Theorem mkdirp_panics_only_on_file (path : gostring) (fs fs' : FS)
    (msg : string) :
  mkdirp path fs = (fs', Panics msg) →
  ∃ fi, os_Stat (filepath.Dir path) fs = (fs', Ok fi) ∧ IsDir fi = false ∧
        msg = "destination path is not directory"%string.
Proof.
  unfold mkdirp, mbind, M_bind, mret, M_ret.
  destruct (os_Stat (filepath.Dir path) fs) as [fs1 [fi|err]].
  - destruct (IsDir fi) eqn:Ed; simpl; intros [= <- <-]. eauto.
  - destruct (IsNotExist err); simpl; [|discriminate].
    destruct (os_MkdirAll _ _ fs1) as [fs2 [e|]]; discriminate.
Qed.

(** X17: an error that [mkdirp] returns is never the error of the
    operating system itself: it is a new error made of a prefix and the
    text of the cause, so [os.IsNotExist] does not hold of it. *)
Theorem mkdirp_error_is_wrapped (path : gostring) (fs fs' : FS) (e : error) :
  mkdirp path fs = (fs', Returns (Some e)) →
  (∃ cause, e = Errorf "error checking destination directory" cause ∨
            e = Errorf "error creating destination directory" cause) ∧
  IsNotExist e = false.
Proof.
  unfold mkdirp, mbind, M_bind, mret, M_ret.
  destruct (os_Stat (filepath.Dir path) fs) as [fs1 [fi|err]].
  - destruct (IsDir fi); simpl; discriminate.
  - destruct (IsNotExist err); simpl.
    + destruct (os_MkdirAll _ _ fs1) as [fs2 [e'|]]; [|discriminate].
      intros [= <- <-]. split; [eauto | reflexivity].
    + intros [= <- <-]. split; [eauto | reflexivity].
Qed.

(** X18: [setLastModified] fails only with the error of [os.Chtimes]: a
    header that is absent or does not parse is never an error. *)
Theorem setLastModified_error_is_Chtimes (resp : Response)
    (filename : gostring) (fs fs' : FS) (e : error) :
  setLastModified time_Parse resp filename fs = (fs', Some e) →
  ∃ lastmod,
    time_Parse TimeFormat (Header_Get (Header resp) (gostr "Last-Modified"))
      = Ok lastmod ∧
    os_Chtimes filename lastmod lastmod fs = (fs', Some e).
Proof.
  unfold setLastModified.
  destruct (bool_decide _); [discriminate|].
  destruct (time_Parse _ _) as [lastmod|e']; [|discriminate].
  eauto.
Qed.

(** X19: an error that [checksum] returns is the error of [os.Open]
    (with no digest and the hash as it was) or the error of
    [f.Close()]; it is never the error of the copy as such. *)
Theorem checksum_error_origin (ctx : Ctx) (filename : gostring)
    (h h' : H) (fs fs' : FS) (b : gostring) (e : error) :
  checksum transfer_copy ctx filename h fs = (fs', (h', (b, Some e))) →
  (os_Open filename fs = (fs', Err e) ∧ b = [] ∧ h' = h) ∨
  (∃ fs1 f fs2 n ec,
     os_Open filename fs = (fs1, Ok f) ∧
     transfer_copy ctx h f fs1 = (fs2, (h', (n, ec))) ∧
     File_Close f fs2 = (fs', Some e)).
Proof.
  unfold checksum, mbind, M_bind, mret, M_ret.
  destruct (os_Open filename fs) as [fs1 [f|e0]] eqn:Eo.
  2:{ intros [= <- <- <- <-]. left. auto. }
  destruct (transfer_copy ctx h f fs1) as [fs2 [h2 [n ec]]] eqn:Et.
  destruct ec; destruct (File_Close f fs2) as [fs3 e3] eqn:Ec;
    intros [= <- <- <- ->]; right; eauto 10.
Qed.

(** X20: [checksum] returns a digest only when the file was opened and
    the copy returned no error; the digest is then [h.Sum(nil)] of the
    hash after the copy, and the error is that of [f.Close()]. *)
Theorem checksum_digest_means_copied (ctx : Ctx) (filename : gostring)
    (h h' : H) (fs fs' : FS) (b : gostring) (err : goerror) :
  checksum transfer_copy ctx filename h fs = (fs', (h', (b, err))) →
  b ≠ [] →
  ∃ fs1 f fs2 n,
    os_Open filename fs = (fs1, Ok f) ∧
    transfer_copy ctx h f fs1 = (fs2, (h', (n, None))) ∧
    b = Hash_Sum h' [] ∧
    File_Close f fs2 = (fs', err).
Proof.
  unfold checksum, mbind, M_bind, mret, M_ret.
  destruct (os_Open filename fs) as [fs1 [f|e]] eqn:Eo.
  2:{ intros [= <- <- <- <-]. congruence. }
  destruct (transfer_copy ctx h f fs1) as [fs2 [h2 [n [e|]]]] eqn:Et.
  - destruct (File_Close f fs2) as [fs3 ec]. intros [= <- <- <- <-].
    congruence.
  - destruct (File_Close f fs2) as [fs3 ec] eqn:Ec.
    intros [= <- <- <- <-] _. exists fs1, f, fs2, n. repeat split; auto.
Qed.

(** X21: for a hash of positive size, [checksum] returns neither a
    digest nor an error exactly in one case: the file was opened, the
    copy failed and [f.Close()] succeeded. *)
Theorem checksum_nil_nil_means_copy_failed (ctx : Ctx) (filename : gostring)
    (h h' : H) (fs fs' : FS) :
  (∀ x : H, 0 < Hash_Size x) →
  checksum transfer_copy ctx filename h fs = (fs', (h', ([], None))) →
  ∃ fs1 f fs2 n e,
    os_Open filename fs = (fs1, Ok f) ∧
    transfer_copy ctx h f fs1 = (fs2, (h', (n, Some e))) ∧
    File_Close f fs2 = (fs', None).
Proof.
  intros Hsize.
  unfold checksum, mbind, M_bind, mret, M_ret.
  destruct (os_Open filename fs) as [fs1 [f|e]] eqn:Eo; [|discriminate].
  destruct (transfer_copy ctx h f fs1) as [fs2 [h2 [n [e|]]]] eqn:Et.
  - destruct (File_Close f fs2) as [fs3 ec] eqn:Ec.
    intros [= <- <- <-]. exists fs1, f, fs2, n, e. repeat split; auto.
  - destruct (File_Close f fs2) as [fs3 ec]. intros [= <- <- Hb <-].
    pose proof (Hash_Sum_length h2 []) as Hl. rewrite Hb in Hl.
    pose proof (Hsize h2). simpl in Hl. lia.
Qed.

End UtilFurther.

(** ** The further properties on the file system in memory *)

Lemma guessFilename_fails_with_url_witness :
  ∃ r', guessFilename Sim.ParseMediaType
          (Sim.response
             [(gostr "Content-Disposition", [Sim.attachment (gostr "dir/")])]
             (gostr "/x/y.bin") [])
        = Ok r'.
Proof.
  apply (proj1 (guessFilename_fails_with_url Sim.ParseMediaType
           (Sim.response
              [(gostr "Content-Disposition", [Sim.attachment (gostr "dir/")])]
              (gostr "/x/y.bin") []))
         (gostr "y.bin")).
  vm_compute. reflexivity.
Defined.

Lemma mkdirp_ignores_filename_witness :
  mkdirp (gostr "/srv/data/new" ++ slash :: gostr "a.bin") Sim.fs0
  = mkdirp (gostr "/srv/data/new" ++ slash :: gostr "b.bin") Sim.fs0.
Proof.
  apply (mkdirp_ignores_filename (os := Sim.sim_OS));
    vm_compute; intros Hin;
    repeat (apply elem_of_cons in Hin as [Hin|Hin]; [discriminate|]);
    inversion Hin.
Defined.

Lemma mkdirp_panics_only_on_file_witness :
  ∃ fi, os_Stat (filepath.Dir (gostr "/srv/data/f.bin/x")) Sim.fs0
          = (Sim.fs0, Ok fi) ∧
        IsDir fi = false ∧
        "destination path is not directory"%string
          = "destination path is not directory"%string.
Proof.
  apply (mkdirp_panics_only_on_file (os := Sim.sim_OS)
           (gostr "/srv/data/f.bin/x") Sim.fs0 Sim.fs0).
  vm_compute. reflexivity.
Defined.

Lemma mkdirp_error_is_wrapped_witness :
  (∃ cause,
     Errorf "error creating destination directory"
       (PathError "mkdir" (gostr "/srv/ro/new") EACCES)
     = Errorf "error checking destination directory" cause ∨
     Errorf "error creating destination directory"
       (PathError "mkdir" (gostr "/srv/ro/new") EACCES)
     = Errorf "error creating destination directory" cause) ∧
  IsNotExist (Errorf "error creating destination directory"
                (PathError "mkdir" (gostr "/srv/ro/new") EACCES)) = false.
Proof.
  apply (mkdirp_error_is_wrapped (os := Sim.sim_OS)
           (gostr "/srv/ro/new/file.bin") Sim.fs0 Sim.fs0).
  vm_compute. reflexivity.
Defined.

Lemma setLastModified_error_is_Chtimes_witness :
  ∃ lastmod,
    Sim.time_Parse TimeFormat
      (Header_Get
         (Header (Sim.response
            [(gostr "Last-Modified", [gostr "Wed, 21 Oct 2015 07:28:00 GMT"])]
            (gostr "/f.bin") []))
         (gostr "Last-Modified"))
      = Ok lastmod ∧
    os_Chtimes (gostr "/srv/data/gone.bin") lastmod lastmod Sim.fs0
      = (Sim.fs0,
         Some (PathError "chtimes" (gostr "/srv/data/gone.bin") ENOENT)).
Proof.
  apply (setLastModified_error_is_Chtimes (os := Sim.sim_OS) Sim.time_Parse).
  vm_compute. reflexivity.
Defined.

Lemma checksum_error_origin_witness :
  (os_Open (gostr "/srv/data/bad.bin") Sim.fs0
     = (Sim.fs0, Err (PathError "close" (gostr "/srv/data/bad.bin") EIO)) ∧
   [ascii_of_N 20] = [] ∧ 20%N = 0%N) ∨
  (∃ fs1 f fs2 n ec,
     os_Open (gostr "/srv/data/bad.bin") Sim.fs0 = (fs1, Ok f) ∧
     Sim.copy None 0%N f fs1 = (fs2, (20%N, (n, ec))) ∧
     File_Close f fs2
       = (Sim.fs0, Some (PathError "close" (gostr "/srv/data/bad.bin") EIO))).
Proof.
  apply (checksum_error_origin (os := Sim.sim_OS) Sim.copy None
           (gostr "/srv/data/bad.bin") 0%N 20%N Sim.fs0 Sim.fs0
           [ascii_of_N 20]).
  vm_compute. reflexivity.
Defined.

Lemma checksum_digest_means_copied_witness :
  ∃ fs1 f fs2 n,
    os_Open (gostr "/srv/data/f.bin") Sim.fs0 = (fs1, Ok f) ∧
    Sim.copy None 0%N f fs1 = (fs2, (20%N, (n, None))) ∧
    [ascii_of_N 20] = Hash_Sum 20%N [] ∧
    File_Close f fs2 = (Sim.fs0, None).
Proof.
  apply (checksum_digest_means_copied (os := Sim.sim_OS) Sim.copy None
           (gostr "/srv/data/f.bin") 0%N 20%N Sim.fs0 Sim.fs0
           [ascii_of_N 20] None).
  - vm_compute. reflexivity.
  - discriminate.
Defined.

Lemma checksum_nil_nil_means_copy_failed_witness :
  ∃ fs1 f fs2 n e,
    os_Open (gostr "/srv/data/f.bin") Sim.fs0 = (fs1, Ok f) ∧
    Sim.copy (Some 0) 0%N f fs1 = (fs2, (0%N, (n, Some e))) ∧
    File_Close f fs2 = (Sim.fs0, None).
Proof.
  apply (checksum_nil_nil_means_copy_failed (os := Sim.sim_OS)
           (hash := Sim.sum8_Hash) Sim.copy (Some 0)
           (gostr "/srv/data/f.bin") 0%N 0%N Sim.fs0 Sim.fs0).
  - intros x. simpl. lia.
  - vm_compute. reflexivity.
Defined.

Lemma Base_properties_witness :
  filepath.Base (gostr "docs/report.pdf" ++ [slash])
  = filepath.Base (gostr "docs/report.pdf").
Proof.
  apply (proj2 (proj2 (Base_properties (gostr "docs/report.pdf")))).
  discriminate.
Defined.
